(** * bibo-img-crypto: the codecs of [src/codec.js]

    A shallow embedding of the pixel and container transformations of
    [src/codec.js], and the properties its specification states about them.

    Conventions of the embedding.
    - A [Uint8ClampedArray] is a [list Z] whose elements lie in [0, 255];
      reading out of range yields [undefined] ([None]); writing out of range
      is ignored; a written number is clamped, and [undefined] is stored
      as [0].
    - An [ImageData] is a record of [width], [height] and [data].
    - A JavaScript [for (i = a; i < b; i += c)] loop is [for_loop]; a loop
      whose body may throw is [for_loopM], in the [option] monad, where
      [None] is a thrown exception. *)

From stdpp Require Import base option list numbers strings gmap pretty.
From Stdlib Require Import ZArith Lia Ascii.

Open Scope Z_scope.
Open Scope nat_scope.

(** ** Loops *)

Section loops.
Context {St : Type}.

(** [for (let i = i0; i < stop; i += step) s = body i s], with [fuel]
    bounding the number of iterations. *)
Fixpoint for_loop (fuel i stop step : nat) (body : nat → St → St) (s : St) : St :=
  match fuel with
  | 0 => s
  | S fuel' =>
      if decide (i < stop)
      then for_loop fuel' (i + step) stop step body (body i s)
      else s
  end.

(** The same loop with a body that may throw. *)
Fixpoint for_loopM (fuel i stop step : nat) (body : nat → St → option St) (s : St)
  : option St :=
  match fuel with
  | 0 => Some s
  | S fuel' =>
      if decide (i < stop)
      then s' ← body i s; for_loopM fuel' (i + step) stop step body s'
      else Some s
  end.

(** [stop - start] iterations always suffice when the step is positive. *)
Definition for_range (start stop step : nat) (body : nat → St → St) (s : St) : St :=
  for_loop (stop - start) start stop step body s.

Definition for_rangeM (start stop step : nat) (body : nat → St → option St) (s : St)
  : option St :=
  for_loopM (stop - start) start stop step body s.

(** The [k]-fold iteration the loops unfold to: *)
Fixpoint iterate (k : nat) (i step : nat) (body : nat → St → St) (s : St) : St :=
  match k with
  | 0 => s
  | S k' => iterate k' (i + step) step body (body i s)
  end.

Fixpoint iterateM (k : nat) (i step : nat) (body : nat → St → option St) (s : St)
  : option St :=
  match k with
  | 0 => Some s
  | S k' => s' ← body i s; iterateM k' (i + step) step body s'
  end.
End loops.

(** ** Typed arrays and image data *)

(** [ToUint8Clamp] of the value being stored. *)
Definition clamp (v : option Z) : Z :=
  match v with
  | None => 0%Z
  | Some z => Z.max 0 (Z.min 255 z)
  end.

(** [arr[i] = v] on a [Uint8ClampedArray]. *)
Definition u8c_store (arr : list Z) (i : nat) (v : option Z) : list Z :=
  <[i := clamp v]> arr.

(** [new Uint8ClampedArray(n)]. *)
Definition u8c_new (n : nat) : list Z := replicate n 0%Z.

Definition is_byte (z : Z) : Prop := (0 ≤ z ≤ 255)%Z.

Record ImageData := mkImageData {
  width : nat;
  height : nat;
  data : list Z;
}.

(** What the canvas guarantees of every [ImageData] it hands out. *)
Record wf_ImageData (img : ImageData) : Prop := {
  wf_width : 0 < width img;
  wf_height : 0 < height img;
  wf_length : length (data img) = width img * height img * 4;
  wf_bytes : Forall is_byte (data img);
}.

Definition with_data (img : ImageData) (d : list Z) : ImageData :=
  {| width := width img; height := height img; data := d |}.

(** ** Configuration

    [getConfig()] of [src/config.js]: the codec selector and the seed. *)

Record Config := mkConfig {
  codecName : string;
  randomSeed : Z;
}.

(** ** RandomSequence *)

(** Modelled from the spec: the pseudorandom generator of [src/random.js],
    "an explicit pseudorandom generator" that the specification leaves
    open: one step of its state, a parameter of the development. *)
Class Rng := rng_step : Z → Z.

(** A linear congruential generator, to run the model on examples. *)
Definition lcg : Rng := λ s, ((s * 1103515245 + 12345) `mod` 2147483648)%Z.

Module RandomSequence.
Section with_rng.
Context `{!Rng}.

(** Modelled from the spec: the class [RandomSequence] of [src/random.js],
    which the specification calls PermutationSequence: "a fixed, versioned,
    deterministic shuffle - e.g., a seeded Fisher-Yates-style generator".
    [fisher_yates k pool st] draws [k] values from [pool] without
    replacement, each at the position the generator picks. *)
Fixpoint fisher_yates (k : nat) (pool : list nat) (st : Z) : list nat :=
  match k with
  | 0 => []
  | S k' =>
      let st' := rng_step st in
      let pos := Z.to_nat (st' `mod` Z.of_nat (length pool)) in
      match pool !! pos with
      | Some v => v :: fisher_yates k' (delete pos pool) st'
      | None => []
      end
  end.

(** Modelled from the spec: the order of the outputs, "fully determined by
    (n, seed)". *)
Definition permutation (n : nat) (seed : Z) : list nat :=
  fisher_yates n (seq 0 n) seed.

(** Modelled from the spec: the sequence is a "logical entity with state =
    how many of the n outputs have been produced so far". *)
Record t := mk {
  n : nat;
  seed : Z;
  produced : nat;
}.

(** Modelled from the spec: [new(n, seed)] constructs. *)
Definition new (n : nat) (seed : Z) : t :=
  {| n := n; seed := seed; produced := 0 |}.

(** Modelled from the spec: [next()] "returns the next element of the
    permutation, fails/undefined if called more than n times"; [None] is
    that failure. *)
Definition next (s : t) : option (nat * t) :=
  v ← permutation (n s) (seed s) !! produced s;
  Some (v, {| n := n s; seed := seed s; produced := S (produced s) |}).

(** [k] successive calls to [next()], collecting the outputs. *)
Fixpoint draw (k : nat) (s : t) : option (list nat * t) :=
  match k with
  | 0 => Some ([], s)
  | S k' =>
      '(v, s') ← next s;
      '(vs, s'') ← draw k' s';
      Some (v :: vs, s'')
  end.
End with_rng.
End RandomSequence.

(** ** InvertCodec *)

Module InvertCodec.
(** [~v & 0xFF]; [~undefined] is [~0]. *)
Definition invert (v : option Z) : option Z :=
  Some (Z.land (Z.lnot (default 0%Z v)) 255).

Definition _invertColor (imgData : ImageData) : ImageData :=
  let data0 := data imgData in
  with_data imgData
    (for_range 0 (length data0) 4 (λ i data,
       let data := u8c_store data i (invert (data !! i)) in
       let data := u8c_store data (i + 1) (invert (data !! (i + 1))) in
       let data := u8c_store data (i + 2) (invert (data !! (i + 2))) in
       data) data0).

Definition _doEncrypt (imgData : ImageData) : ImageData := _invertColor imgData.
Definition _doDecrypt (imgData : ImageData) : ImageData := _invertColor imgData.
End InvertCodec.

(** ** ShuffleRgbCodec *)

Module ShuffleRgbCodec.
Section with_rng.
Context `{!Rng}.

(** [data.length / 4 * 3]: the length of the data of an [ImageData] is a
    multiple of 4, so the division is exact. *)
Definition nRgbs (data : list Z) : nat := length data / 4 * 3.

Definition _doEncrypt (cfg : Config) (imgData : ImageData) : option ImageData :=
  let data0 := data imgData in
  let seq := RandomSequence.new (nRgbs data0) (randomSeed cfg) in
  let buffer := u8c_new (nRgbs data0) in
  '(buffer, _) ← for_rangeM 0 (length data0) 4 (λ i '(buffer, seq),
      '(p, seq) ← RandomSequence.next seq;
      let buffer := u8c_store buffer p (data0 !! i) in
      '(p, seq) ← RandomSequence.next seq;
      let buffer := u8c_store buffer p (data0 !! (i + 1)) in
      '(p, seq) ← RandomSequence.next seq;
      let buffer := u8c_store buffer p (data0 !! (i + 2)) in
      Some (buffer, seq)) (buffer, seq);
  let '(data1, _) := for_range 0 (length data0) 4 (λ i '(data, j),
      let data := u8c_store data i (buffer !! j) in
      let data := u8c_store data (i + 1) (buffer !! (j + 1)) in
      let data := u8c_store data (i + 2) (buffer !! (j + 2)) in
      (data, j + 3)) (data0, 0) in
  Some (with_data imgData data1).

Definition _doDecrypt (cfg : Config) (imgData : ImageData) : option ImageData :=
  let data0 := data imgData in
  let buffer := u8c_new (nRgbs data0) in
  let '(buffer, _) := for_range 0 (length data0) 4 (λ i '(buffer, j),
      let buffer := u8c_store buffer j (data0 !! i) in
      let buffer := u8c_store buffer (j + 1) (data0 !! (i + 1)) in
      let buffer := u8c_store buffer (j + 2) (data0 !! (i + 2)) in
      (buffer, j + 3)) (buffer, 0) in
  let seq := RandomSequence.new (nRgbs data0) (randomSeed cfg) in
  '(data1, _) ← for_rangeM 0 (length data0) 4 (λ i '(data, seq),
      '(p, seq) ← RandomSequence.next seq;
      let data := u8c_store data i (buffer !! p) in
      '(p, seq) ← RandomSequence.next seq;
      let data := u8c_store data (i + 1) (buffer !! p) in
      '(p, seq) ← RandomSequence.next seq;
      let data := u8c_store data (i + 2) (buffer !! p) in
      Some (data, seq)) (data0, seq);
  Some (with_data imgData data1).
End with_rng.
End ShuffleRgbCodec.

(** ** ShuffleBlockCodec *)

(** [ctx.createImageData(sw, sh)]: a transparent black image; the canvas
    throws an [IndexSizeError] when a dimension is zero. *)
Definition createImageData (sw sh : nat) : option ImageData :=
  if decide (sw = 0 ∨ sh = 0) then None
  else Some {| width := sw; height := sh; data := u8c_new (sw * sh * 4) |}.

Module ShuffleBlockCodec.
Section with_rng.
Context `{!Rng}.

Definition _copyBlock (dstImgData : ImageData) (dstBlockX dstBlockY : nat)
    (srcImgData : ImageData) (srcBlockX srcBlockY : nat) : ImageData :=
  let iDstStart := (dstBlockY * width dstImgData + dstBlockX) * 8 * 4 in
  let iSrcStart := (srcBlockY * width srcImgData + srcBlockX) * 8 * 4 in
  let '(dstData, _, _) :=
    for_range 0 8 1 (λ y '(dstData, iDstStart, iSrcStart),
      let dstData := for_range 0 (8 * 4) 1 (λ i dstData,
          u8c_store dstData (iDstStart + i) (data srcImgData !! (iSrcStart + i)))
        dstData in
      (dstData, iDstStart + width dstImgData * 4, iSrcStart + width srcImgData * 4))
      (data dstImgData, iDstStart, iSrcStart) in
  with_data dstImgData dstData.

Definition _doCommon (cfg : Config) (imgData : ImageData)
    (handleCopy : ImageData → nat → nat → nat → nat → ImageData) : option ImageData :=
  let blockWidth := width imgData / 8 in
  let blockHeight := height imgData / 8 in
  result ← createImageData (blockWidth * 8) (blockHeight * 8);
  let seq := RandomSequence.new (blockWidth * blockHeight) (randomSeed cfg) in
  '(result, _) ← for_rangeM 0 blockHeight 1 (λ blockY st,
      for_rangeM 0 blockWidth 1 (λ blockX '(result, seq),
        '(index, seq) ← RandomSequence.next seq;
        let newBlockX := index `mod` blockWidth in
        let newBlockY := index / blockWidth in
        Some (handleCopy result blockX blockY newBlockX newBlockY, seq)) st)
    (result, seq);
  Some result.

Definition _doEncrypt (cfg : Config) (imgData : ImageData) : option ImageData :=
  _doCommon cfg imgData (λ result blockX blockY newBlockX newBlockY,
    _copyBlock result newBlockX newBlockY imgData blockX blockY).

Definition _doDecrypt (cfg : Config) (imgData : ImageData) : option ImageData :=
  _doCommon cfg imgData (λ result blockX blockY newBlockX newBlockY,
    _copyBlock result blockX blockY imgData newBlockX newBlockY).
End with_rng.
End ShuffleBlockCodec.

(** ** MosaicCodec *)

(** The outcome of running code that may throw; [Diverged] is a run that
    exhausts the fuel of its loop. *)
Inductive outcome (A : Type) : Type :=
  | Returned (a : A)
  | Thrown
  | Diverged.
Arguments Returned {A} a.
Arguments Thrown {A}.
Arguments Diverged {A}.

(** [try { body } catch { return handler }]. *)
Definition try_catch {A} (body : outcome A) (handler : A) : outcome A :=
  match body with
  | Thrown => Returned handler
  | o => o
  end.

(** [DataView.prototype.getUint32(byteOffset)], big-endian; [None] is the
    [RangeError] thrown when the four bytes are not all inside the view. *)
Definition getUint32 (view : list Z) (byteOffset : nat) : option Z :=
  b0 ← view !! byteOffset;
  b1 ← view !! (byteOffset + 1);
  b2 ← view !! (byteOffset + 2);
  b3 ← view !! (byteOffset + 3);
  Some (((b0 * 256 + b1) * 256 + b2) * 256 + b3)%Z.

Module MosaicCodec.
Definition BLOCK_SIZE : nat := 32.

(** [total += v] on numbers; [None] is [NaN], the sum with [undefined]. *)
Definition js_add (total : option Z) (v : option Z) : option Z :=
  t ← total; z ← v; Some (t + z)%Z.

(** [Math.round(total / width / height)].  [total] is a sum of at most
    32 * 32 bytes and [width], [height] are at most 32, so both divisions
    are of small integers: a quotient that is a half-integer is computed
    exactly, any other quotient lies at least 1/2048 from a half-integer,
    far beyond the rounding error of a double, and [Math.round] rounds
    halves up.  The result is therefore the floor of
    [total / (width * height) + 1/2].  A block of no pixels divides by
    zero, and the result is then stored nowhere; the model takes [NaN]. *)
Definition round_average (total : option Z) (width height : nat) : option Z :=
  t ← total;
  if decide (width * height = 0) then None
  else Some ((2 * t + Z.of_nat (width * height)) / (2 * Z.of_nat (width * height)))%Z.

(** [_mosaic (x, y, width, height)]; the last two parameters are named
    [blockWidth] and [blockHeight] here, after the arguments of the call,
    to keep them apart from the fields of the image. *)
Definition _mosaic (imgData : ImageData) (x y blockWidth blockHeight : nat) : ImageData :=
  with_data imgData
    (for_range 0 4 1 (λ iChannel data,
       let iStart := (y * width imgData + x) * 4 + iChannel in
       let '(total, _) :=
         for_range 0 blockHeight 1 (λ _ '(total, iStart),
           (for_range 0 blockWidth 1 (λ x total,
              js_add total (data !! (iStart + x * 4))) total,
            iStart + width imgData * 4)) (Some 0%Z, iStart) in
       let average := round_average total blockWidth blockHeight in
       let iStart := (y * width imgData + x) * 4 + iChannel in
       let '(data, _) :=
         for_range 0 blockHeight 1 (λ _ '(data, iStart),
           (for_range 0 blockWidth 1 (λ x data,
              u8c_store data (iStart + x * 4) average) data,
            iStart + width imgData * 4)) (data, iStart) in
       data) (data imgData)).

Definition _doEncrypt (imgData : ImageData) : ImageData :=
  for_range 0 (height imgData) BLOCK_SIZE (λ y imgData,
    let blockHeight := BLOCK_SIZE `min` (height imgData - y) in
    for_range 0 (width imgData) BLOCK_SIZE (λ x imgData,
      let blockWidth := BLOCK_SIZE `min` (width imgData - x) in
      _mosaic imgData x y blockWidth blockHeight) imgData) imgData.

(** [Codec.encryptToBlob] followed by the concatenation with the file.
    [render] stands for the canvas: [putImageData], [toDataURL] and
    [dataUrlToBlob], which yield the bytes of a PNG file. *)
Definition encryptToBlob (render : ImageData → list Z) (imgData : ImageData)
    (fileBuffer : list Z) : list Z :=
  let newImgBlob := render (_doEncrypt imgData) in
  newImgBlob ++ fileBuffer.

(** The [do ... while (typeCode !== IEND)] loop: the offset after the
    IEND chunk. *)
Fixpoint skip_chunks (fuel : nat) (fileView : list Z) (offset : nat) : outcome nat :=
  match fuel with
  | 0 => Diverged
  | S fuel' =>
      match getUint32 fileView offset, getUint32 fileView (offset + 4) with
      | Some dataLength, Some typeCode =>
          let offset := offset + (8 + Z.to_nat dataLength + 4) in
          if decide (typeCode ≠ 0x49454E44%Z)
          then skip_chunks fuel' fileView offset
          else Returned offset
      | _, _ => Thrown
      end
  end.

(** The body of the [try]: [None] is the empty string, [Some bytes] the
    URL of a blob of [bytes]. *)
Definition decryptToUrl_body (fileBuffer : list Z) : outcome (option (list Z)) :=
  let fileView := fileBuffer in
  let skip_first_image :=
    match skip_chunks (length fileView) fileView 8 with
    | Returned offset =>
        if decide (length fileView ≤ offset) then Returned None
        else Returned (Some (drop offset fileBuffer))
    | Thrown => Thrown
    | Diverged => Diverged
    end in
  (* [a !== A || b !== B]: [b] is read only when [a] is [A] *)
  match getUint32 fileView 0 with
  | None => Thrown
  | Some magic0 =>
      if decide (magic0 ≠ 0x89504E47%Z) then Returned None
      else
        match getUint32 fileView 4 with
        | None => Thrown
        | Some magic1 =>
            if decide (magic1 ≠ 0x0D0A1A0A%Z) then Returned None
            else skip_first_image
        end
  end.

Definition decryptToUrl (fileBuffer : list Z) : outcome (option (list Z)) :=
  try_catch (decryptToUrl_body fileBuffer) None.
End MosaicCodec.

(** ** The codec registry *)

Inductive CodecClass :=
  | class_InvertCodec
  | class_ShuffleRgbCodec
  | class_ShuffleBlockCodec
  | class_MosaicCodec.

(** The values a property of [codecClasses] can have. *)
Inductive value :=
  | undefined
  | codec_class (c : CodecClass)
  | Object_constructor                 (* the function [Object] *)
  | Object_prototype_object            (* the object [Object.prototype] *)
  | builtin_method (name : string).    (* a method of [Object.prototype] *)

(** The object a [new] expression creates. *)
Inductive instance :=
  | codec_instance (c : CodecClass)
  | plain_object.

(** The properties of [Object.prototype], which [codecClasses = {}]
    inherits from. *)
Definition Object_prototype : gmap string value :=
  list_to_map [
    ("constructor", Object_constructor);
    ("__proto__", Object_prototype_object);
    ("hasOwnProperty", builtin_method "hasOwnProperty");
    ("isPrototypeOf", builtin_method "isPrototypeOf");
    ("propertyIsEnumerable", builtin_method "propertyIsEnumerable");
    ("toLocaleString", builtin_method "toLocaleString");
    ("toString", builtin_method "toString");
    ("valueOf", builtin_method "valueOf");
    ("__defineGetter__", builtin_method "__defineGetter__");
    ("__defineSetter__", builtin_method "__defineSetter__");
    ("__lookupGetter__", builtin_method "__lookupGetter__");
    ("__lookupSetter__", builtin_method "__lookupSetter__")
  ]%string.

(** The own properties of [codecClasses] once the module is loaded. *)
Definition codecClasses : gmap string value :=
  <["MosaicCodec"%string := codec_class class_MosaicCodec]>
    (<["ShuffleBlockCodec"%string := codec_class class_ShuffleBlockCodec]>
      (<["ShuffleRgbCodec"%string := codec_class class_ShuffleRgbCodec]>
        (<["InvertCodec"%string := codec_class class_InvertCodec]> ∅))).

(** [obj[name]] on an ordinary object: the own property, or else the
    inherited one. *)
Definition get_property (own : gmap string value) (name : string) : value :=
  match own !! name with
  | Some v => v
  | None => default undefined (Object_prototype !! name)
  end.

(** [a || b]: every value here but [undefined] is truthy. *)
Definition js_or (a b : value) : value :=
  match a with
  | undefined => b
  | _ => a
  end.

(** [new C()]; [None] is the [TypeError] for a value that is not a
    constructor. *)
Definition js_new (c : value) : option instance :=
  match c with
  | codec_class c => Some (codec_instance c)
  | Object_constructor => Some plain_object
  | _ => None
  end.

Definition createCodec (cfg : Config) : option instance :=
  let CodecClass := js_or (get_property codecClasses (codecName cfg))
                          (codec_class class_ShuffleBlockCodec) in
  js_new CodecClass.

(** ** Vocabulary of the specification *)

(** "complement each of the R, G, B byte values (value XOR 0xFF); alpha is
    left unchanged": the byte at index [j] of an RGBA buffer is an alpha
    byte when [j mod 4 = 3]. *)
Definition complement_rgb (j : nat) (v : Z) : Z :=
  if decide (j `mod` 4 = 3) then v else Z.lxor v 255.

(** The container of the mosaic codec: "[8-byte PNG signature][chunk]...
    [IEND chunk][trailing bytes], where each chunk is [4-byte big-endian
    length][4-byte type code][length bytes of data][4-byte CRC]". *)
Definition PNG_SIGNATURE : list Z :=
  [0x89; 0x50; 0x4E; 0x47; 0x0D; 0x0A; 0x1A; 0x0A]%Z.

Definition IEND : Z := 0x49454E44%Z.

Record chunk := mkChunk {
  chunk_type : Z;
  chunk_data : list Z;
  chunk_crc : Z;
}.

(** The four bytes of a 32-bit number, most significant first. *)
Definition be32 (n : Z) : list Z :=
  [(n / 2 ^ 24) `mod` 256; (n / 2 ^ 16) `mod` 256; (n / 2 ^ 8) `mod` 256; n `mod` 256]%Z.

Definition chunk_bytes (c : chunk) : list Z :=
  be32 (Z.of_nat (length (chunk_data c))) ++ be32 (chunk_type c)
  ++ chunk_data c ++ be32 (chunk_crc c).

Definition wf_chunk (c : chunk) : Prop :=
  (0 ≤ chunk_type c < 2 ^ 32)%Z ∧ (Z.of_nat (length (chunk_data c)) < 2 ^ 32)%Z.

Definition png_file (chunks : list chunk) (iend : chunk) : list Z :=
  PNG_SIGNATURE ++ concat (chunk_bytes <$> chunks) ++ chunk_bytes iend.

(** A PNG file: the signature and a chunk stream that the first IEND chunk
    ends. *)
Definition is_png (bytes : list Z) : Prop :=
  ∃ chunks iend,
    Forall (λ c, wf_chunk c ∧ chunk_type c ≠ IEND) chunks ∧
    wf_chunk iend ∧ chunk_type iend = IEND ∧
    bytes = png_file chunks iend.

(** InvalidContainer: "first 8 bytes not equal to the PNG signature". *)
Definition InvalidContainer (bytes : list Z) : Prop :=
  take 8 bytes ≠ PNG_SIGNATURE.

(** "chunk walk runs past buffer end before IEND": from [offset] on, the
    headers of the chunks that are not IEND lead to an offset where no
    chunk header is left to read. *)
Inductive walk_runs_past_end (bytes : list Z) : nat → Prop :=
  | walk_no_header offset :
      length bytes < offset + 8 →
      walk_runs_past_end bytes offset
  | walk_skip_chunk offset dataLength typeCode :
      getUint32 bytes offset = Some dataLength →
      getUint32 bytes (offset + 4) = Some typeCode →
      typeCode ≠ IEND →
      walk_runs_past_end bytes (offset + (8 + Z.to_nat dataLength + 4)) →
      walk_runs_past_end bytes offset.

(** TruncatedContainer. *)
Definition TruncatedContainer (bytes : list Z) : Prop :=
  take 8 bytes = PNG_SIGNATURE ∧ walk_runs_past_end bytes 8.

(** NoEmbeddedPayload: "well-formed container, nothing after IEND". *)
Definition NoEmbeddedPayload (bytes : list Z) : Prop := is_png bytes.

(** A smallest PNG-shaped file, to run the container code on: an IHDR
    chunk of two bytes and the IEND chunk. *)
Definition sample_png : list Z :=
  png_file [mkChunk 0x49484452%Z [7; 7]%Z 0x01020304%Z] (mkChunk IEND [] 0xAE426082%Z).

Global Instance ImageData_eq_dec : EqDecision ImageData.
Proof. solve_decision. Defined.

Global Instance is_byte_dec z : Decision (is_byte z).
Proof. unfold is_byte. apply _. Defined.

(** *** Indices into pixel data *)

(** Byte [c] of the pixel at column [px] and row [py] of an image [W]
    pixels wide: row-major, four bytes a pixel. *)
Definition pixel_index (W px py c : nat) : nat := (py * W + px) * 4 + c.

(** Byte [i] of row [y] of the 8x8 block at block position [(bx, by_)] of
    an image [W] pixels wide. *)
Definition block_byte (W bx by_ y i : nat) : nat :=
  (by_ * W + bx) * 8 * 4 + y * (W * 4) + i.

(** The index in the RGBA data of the [j]-th R, G or B value. *)
Definition rgb_index (j : nat) : nat := j / 3 * 4 + j `mod` 3.

(** *** The mean of a channel over a block *)

Fixpoint sumZ (f : nat → Z) (n : nat) : Z :=
  match n with
  | 0 => 0%Z
  | S n' => (sumZ f n' + f n')%Z
  end.

Definition byte_at (d : list Z) (i : nat) : Z := default 0%Z (d !! i).

(** The sum of channel [c] over the block of [bw] by [bh] pixels whose
    top left pixel is [(x, y)]. *)
Definition channel_total (d : list Z) (W x y bw bh c : nat) : Z :=
  sumZ (λ yy, sumZ (λ xx, byte_at d (pixel_index W (x + xx) (y + yy) c)) bw) bh.

(** [m] is [total / count] rounded to the nearest integer, a half up:
    [m - 1/2 <= total / count < m + 1/2]. *)
Definition nearest_integer (total count m : Z) : Prop :=
  (2 * count * m - count ≤ 2 * total < 2 * count * m + count)%Z.

(** The mosaic block a coordinate [p] falls in starts at the multiple of
    32 below [p] and is clipped to the [size] of the image. *)
Definition block_origin (p : nat) : nat := p / 32 * 32.

Definition block_extent (size p : nat) : nat := 32 `min` (size - block_origin p).

(** *** Sample inputs *)

(** An image whose bytes count up from 0. *)
Definition gradient (w h : nat) : ImageData :=
  {| width := w; height := h;
     data := (λ k, Z.of_nat (k `mod` 256)) <$> seq 0 (w * h * 4) |}.

(** The 2x2 block with R values 10, 20, 30, 41. *)
Definition mosaic_sample : ImageData :=
  {| width := 2; height := 2;
     data := [10; 0; 0; 255; 20; 0; 0; 255; 30; 0; 0; 255; 41; 0; 0; 255]%Z |}.

(** ** Loop invariants *)

(** [_invertColor]: the bytes before index [m] are done. *)
Definition inverted_upto (data0 : list Z) (m : nat) (data : list Z) : Prop :=
  length data = length data0 ∧
  ∀ j, data !! j =
       if decide (j < m) then complement_rgb j <$> data0 !! j else data0 !! j.

(** [_copyBlock]: the state of the row loop after [t] rows, where the
    copy starts at [iDst] in [dst] and at [iSrc] in [src]. *)
Definition rows_copied (dst src : ImageData) (iDst iSrc : nat) (t : nat)
    (st : list Z * nat * nat) : Prop :=
  let '(d, iDstStart, iSrcStart) := st in
  iDstStart = iDst + t * (width dst * 4) ∧
  iSrcStart = iSrc + t * (width src * 4) ∧
  length d = length (data dst) ∧
  (∀ y i, y < t → i < 32 → iDst + y * (width dst * 4) + i < length (data dst) →
     d !! (iDst + y * (width dst * 4) + i)
     = Some (clamp (data src !! (iSrc + y * (width src * 4) + i)))) ∧
  (∀ j, (∀ y i, y < t → i < 32 → j ≠ iDst + y * (width dst * 4) + i) →
     d !! j = data dst !! j).

Section shuffle_invariants.
Context `{!Rng}.

(** The two closures that [ShuffleBlockCodec._doEncrypt] and [_doDecrypt]
    pass to [_doCommon]. *)
Definition copy_direction (enc : bool) (imgData : ImageData)
  : ImageData → nat → nat → nat → nat → ImageData :=
  if enc
  then λ result blockX blockY newBlockX newBlockY,
         ShuffleBlockCodec._copyBlock result newBlockX newBlockY imgData blockX blockY
  else λ result blockX blockY newBlockX newBlockY,
         ShuffleBlockCodec._copyBlock result blockX blockY imgData newBlockX newBlockY.

(** The numbers of the block written and of the block read at step [k],
    where the sequence yields [p]. *)
Definition dst_block (enc : bool) (k p : nat) : nat := if enc then p else k.
Definition src_block (enc : bool) (k p : nat) : nat := if enc then k else p.

(** [_doCommon]: the state of the loops after [k] blocks. *)
Definition blocks_copied (enc : bool) (imgData : ImageData) (seed : Z) (bw bh : nat)
    (k : nat) (st : ImageData * RandomSequence.t) : Prop :=
  let '(result, seq) := st in
  seq = RandomSequence.mk (bw * bh) seed k ∧
  width result = bw * 8 ∧ height result = bh * 8 ∧
  length (data result) = bw * 8 * (bh * 8) * 4 ∧
  ∀ k' p y i,
    k' < k → RandomSequence.permutation (bw * bh) seed !! k' = Some p →
    y < 8 → i < 32 →
    data result !! block_byte (bw * 8) (dst_block enc k' p `mod` bw)
                              (dst_block enc k' p / bw) y i
    = Some (clamp (data imgData !!
              block_byte (width imgData) (src_block enc k' p `mod` bw)
                         (src_block enc k' p / bw) y i)).

(** [ShuffleRgbCodec._doEncrypt], first loop: the first [m] values of
    [src] are placed in the buffer. *)
Definition scattered (n : nat) (seed : Z) (src : list Z) (m : nat)
    (st : list Z * RandomSequence.t) : Prop :=
  let '(buffer, seq) := st in
  seq = RandomSequence.mk n seed m ∧ length buffer = n ∧
  ∀ j p, j < m → RandomSequence.permutation n seed !! j = Some p →
         buffer !! p = Some (clamp (src !! rgb_index j)).

(** [ShuffleRgbCodec._doEncrypt], second loop: the first [m] values of
    the buffer are in the R, G, B slots of the data. *)
Definition copied_in (data0 buffer : list Z) (m : nat) (data : list Z) : Prop :=
  length data = length data0 ∧
  (∀ j, j < m → data !! rgb_index j = Some (clamp (buffer !! j))) ∧
  (∀ idx, (∀ j, j < m → idx ≠ rgb_index j) → data !! idx = data0 !! idx).

(** [ShuffleRgbCodec._doDecrypt], first loop: the first [m] R, G, B
    values of the data are in the buffer. *)
Definition gathered (n : nat) (data : list Z) (m : nat) (buffer : list Z) : Prop :=
  length buffer = n ∧
  ∀ j, j < m → buffer !! j = Some (clamp (data !! rgb_index j)).

(** [ShuffleRgbCodec._doDecrypt], second loop: the first [m] R, G, B
    slots are read back from the positions the sequence yields. *)
Definition restored (n : nat) (seed : Z) (data0 buffer : list Z) (m : nat)
    (st : list Z * RandomSequence.t) : Prop :=
  let '(data, seq) := st in
  seq = RandomSequence.mk n seed m ∧ length data = length data0 ∧
  (∀ j p, j < m → RandomSequence.permutation n seed !! j = Some p →
          data !! rgb_index j = Some (clamp (buffer !! p))) ∧
  (∀ idx, (∀ j, j < m → idx ≠ rgb_index j) → data !! idx = data0 !! idx).
End shuffle_invariants.

(** The value [_mosaic] stores in channel [c] of a block: the rounded
    average as the code computes it. *)
Definition block_average (d : list Z) (W x y bw bh c : nat) : Z :=
  clamp (MosaicCodec.round_average (Some (channel_total d W x y bw bh c)) bw bh).

Definition mosaic_value (d0 : list Z) (W H px py c : nat) : Z :=
  block_average d0 W (block_origin px) (block_origin py)
    (block_extent W px) (block_extent H py) c.

(** [MosaicCodec._doEncrypt]: the pixels for which [processed] holds have
    their mosaic value, the others their original value. *)
Definition mosaicked (d0 : list Z) (W H : nat) (processed : nat → nat → Prop)
    (imgData : ImageData) : Prop :=
  width imgData = W ∧ height imgData = H ∧
  length (data imgData) = length d0 ∧
  (∀ px py c, px < W → py < H → c < 4 → processed px py →
     data imgData !! pixel_index W px py c = Some (mosaic_value d0 W H px py c)) ∧
  (∀ px py c, px < W → py < H → c < 4 → ¬ processed px py →
     data imgData !! pixel_index W px py c = d0 !! pixel_index W px py c).

(** ** URLs and blobs: [getImgSrcToDecrypt] and [dataUrlToBlob] *)

(** [s.indexOf(c)] for a needle [c] of one character; [None] is [-1]. *)
Fixpoint indexOf (c : ascii) (s : string) : option nat :=
  match s with
  | EmptyString => None
  | String a s' => if decide (a = c) then Some 0 else S <$> indexOf c s'
  end.

(** [getImgSrcToDecrypt (originSrc)]; [getTime] is the value of
    [new Date().getTime()], an integer, which [+] turns into its decimal
    digits. *)
Definition getImgSrcToDecrypt (getTime : Z) (originSrc : string) : string :=
  let pos := indexOf "@" originSrc in
  let src := match pos with
             | None => originSrc
             | Some pos => String.substring 0 pos originSrc
             end in
  if negb (String.prefix "data:" src)
  then src +:+ (match indexOf "?" src with
                | None => "?_t="
                | Some _ => "&_t="
                end) +:+ pretty getTime
  else src.

(** [new Blob([bytes], {type})]: the bytes and the type handed to the
    constructor. *)
Record Blob := mkBlob {
  blob_bytes : list Z;
  blob_type : string;
}.

(** [s.split(sep)] for a separator [sep] of one character. *)
Fixpoint split (sep : ascii) (s : string) : list string :=
  match s with
  | EmptyString => [EmptyString]
  | String a s' =>
      if decide (a = sep) then EmptyString :: split sep s'
      else match split sep s' with
           | piece :: pieces => String a piece :: pieces
           | [] => [String a EmptyString]
           end
  end.

(** The characters that [.] does not match: of the 8-bit characters, line
    feed and carriage return. *)
Definition is_line_terminator (a : ascii) : bool :=
  bool_decide (a = "010"%char ∨ a = "013"%char).

(** [(.*?);] at the start of [s]: the characters before the first [;],
    when no line terminator comes before it. *)
Fixpoint lazy_until_semicolon (s : string) : option string :=
  match s with
  | EmptyString => None
  | String a s' =>
      if decide (a = ";"%char) then Some EmptyString
      else if is_line_terminator a then None
      else String a <$> lazy_until_semicolon s'
  end.

(** [s.match(/:(.*?);/)[1]]: group 1 of the leftmost match; [None] is the
    [TypeError] of indexing the [null] of a failed match. *)
Fixpoint match_mime (s : string) : option string :=
  match s with
  | EmptyString => None
  | String a s' =>
      if decide (a = ":"%char)
      then match lazy_until_semicolon s' with
           | Some group => Some group
           | None => match_mime s'
           end
      else match_mime s'
  end.

(** [uint8Arr[i] = bin.charCodeAt(i)] for each index [i] of [bin]. *)
Definition char_codes (bin : string) : list Z :=
  (λ a, Z.of_nat (nat_of_ascii a) `mod` 256)%Z <$> String.list_ascii_of_string bin.

(** [dataUrlToBlob (url)]; [atob] is the base64 decoder of the platform,
    [None] when it throws.  A missing second piece is [undefined], which
    [atob] reads as the string "undefined". *)
Definition dataUrlToBlob (atob : string → option string) (url : string) : option Blob :=
  let pieces := take 2 (split "," url) in
  mime ← pieces !! 0;
  let base64 := pieces !! 1 in
  mime ← match_mime mime;
  bin ← atob (default "undefined"%string base64);
  Some {| blob_bytes := char_codes bin; blob_type := mime |}.

(** ** More vocabulary *)

(** The R, G and B values of RGBA data, in order. *)
Definition rgb_values (d : list Z) : list Z :=
  (λ j, byte_at d (rgb_index j)) <$> seq 0 (length d / 4 * 3).

(** * Properties *)

(** ** Loops as iterations *)

Section loop_facts.
Context {St : Type}.
Implicit Types (body : nat → St → St) (bodyM : nat → St → option St).

Lemma for_loop_iterate k fuel i stop step body s :
  k ≤ fuel → stop ≤ i + k * step →
  (∀ j, j < k → i + j * step < stop) →
  for_loop fuel i stop step body s = iterate k i step body s.
Proof.
  revert fuel i s. induction k as [|k IH]; intros fuel i s Hfuel Hstop Hlt.
  - destruct fuel as [|fuel]; simpl; [done|].
    case_decide; [lia|done].
  - destruct fuel as [|fuel]; [lia|]. simpl.
    pose proof (Hlt 0 ltac:(lia)).
    rewrite decide_True by lia.
    apply IH; [lia|lia|]. intros j Hj. specialize (Hlt (S j) ltac:(lia)). lia.
Qed.

Lemma for_loopM_iterateM k fuel i stop step bodyM s :
  k ≤ fuel → stop ≤ i + k * step →
  (∀ j, j < k → i + j * step < stop) →
  for_loopM fuel i stop step bodyM s = iterateM k i step bodyM s.
Proof.
  revert fuel i s. induction k as [|k IH]; intros fuel i s Hfuel Hstop Hlt.
  - destruct fuel as [|fuel]; simpl; [done|].
    case_decide; [lia|done].
  - destruct fuel as [|fuel]; [lia|]. simpl.
    pose proof (Hlt 0 ltac:(lia)).
    rewrite decide_True by lia.
    destruct (bodyM i s) as [s'|]; simpl; [|done].
    apply IH; [lia|lia|]. intros j Hj. specialize (Hlt (S j) ltac:(lia)). lia.
Qed.

Lemma iterate_ind (P : nat → St → Prop) k i step body s :
  P 0 s →
  (∀ j s, j < k → P j s → P (S j) (body (i + j * step) s)) →
  P k (iterate k i step body s).
Proof.
  revert P i s. induction k as [|k IH]; intros P i s H0 Hstep; simpl; [done|].
  apply (IH (λ j, P (S j))).
  - specialize (Hstep 0 s ltac:(lia) H0). by rewrite Nat.add_0_r in Hstep.
  - intros j s' Hj HP. specialize (Hstep (S j) s' ltac:(lia) HP).
    by replace (i + step + j * step) with (i + S j * step) by lia.
Qed.

Lemma iterateM_ind (P : nat → St → Prop) k i step bodyM s :
  P 0 s →
  (∀ j s, j < k → P j s → ∃ s', bodyM (i + j * step) s = Some s' ∧ P (S j) s') →
  ∃ s', iterateM k i step bodyM s = Some s' ∧ P k s'.
Proof.
  revert P i s. induction k as [|k IH]; intros P i s H0 Hstep; simpl; [eauto|].
  destruct (Hstep 0 s ltac:(lia) H0) as (s' & Hs' & HP).
  rewrite Nat.add_0_r in Hs'. rewrite Hs'. simpl.
  apply (IH (λ j, P (S j))); [done|].
  intros j s'' Hj HP'. specialize (Hstep (S j) s'' ltac:(lia) HP').
  by replace (i + step + j * step) with (i + S j * step) by lia.
Qed.

Local Ltac fuel_enough :=
  match goal with
  | Hlt : ∀ j, j < ?k → _ |- ?k ≤ _ =>
      destruct k as [|k']; [lia|specialize (Hlt k' ltac:(lia)); nia]
  end.

(** The invariant rule of a [for] loop that runs [k] times. *)
Lemma for_range_ind (P : nat → St → Prop) k start stop step body s :
  0 < step → stop ≤ start + k * step →
  (∀ j, j < k → start + j * step < stop) →
  P 0 s →
  (∀ j s, j < k → P j s → P (S j) (body (start + j * step) s)) →
  P k (for_range start stop step body s).
Proof.
  intros Hstep Hstop Hlt H0 HS. unfold for_range.
  rewrite (for_loop_iterate k); [|by fuel_enough|done|done].
  by apply iterate_ind.
Qed.

Lemma for_rangeM_ind (P : nat → St → Prop) k start stop step bodyM s :
  0 < step → stop ≤ start + k * step →
  (∀ j, j < k → start + j * step < stop) →
  P 0 s →
  (∀ j s, j < k → P j s →
     ∃ s', bodyM (start + j * step) s = Some s' ∧ P (S j) s') →
  ∃ s', for_rangeM start stop step bodyM s = Some s' ∧ P k s'.
Proof.
  intros Hstep Hstop Hlt H0 HS. unfold for_rangeM.
  rewrite (for_loopM_iterateM k); [|by fuel_enough|done|done].
  by apply iterateM_ind.
Qed.

(** A loop counting up from 0 by 1. *)
Lemma for_count_ind (P : nat → St → Prop) n body s :
  P 0 s →
  (∀ j s, j < n → P j s → P (S j) (body j s)) →
  P n (for_range 0 n 1 body s).
Proof.
  intros H0 HS. apply for_range_ind; [lia|lia|lia|done|].
  intros j s' Hj HP. replace (0 + j * 1) with j by lia. by apply HS.
Qed.

Lemma for_countM_ind (P : nat → St → Prop) n bodyM s :
  P 0 s →
  (∀ j s, j < n → P j s → ∃ s', bodyM j s = Some s' ∧ P (S j) s') →
  ∃ s', for_rangeM 0 n 1 bodyM s = Some s' ∧ P n s'.
Proof.
  intros H0 HS. apply for_rangeM_ind; [lia|lia|lia|done|].
  intros j s' Hj HP. replace (0 + j * 1) with j by lia. by apply HS.
Qed.
End loop_facts.

(** ** Typed arrays *)

(** A concrete image is well formed by computation. *)
Ltac wf_by_computation :=
  split; [simpl; lia|simpl; lia|done|apply (bool_decide_unpack _); by vm_compute].

Lemma clamp_byte v : is_byte v → clamp (Some v) = v.
Proof. unfold is_byte, clamp. lia. Qed.

Lemma clamp_is_byte v : is_byte (clamp v).
Proof. unfold is_byte, clamp. destruct v; lia. Qed.

Lemma length_u8c_store arr i v : length (u8c_store arr i v) = length arr.
Proof. apply length_insert. Qed.

Lemma lookup_u8c_store arr i v j :
  u8c_store arr i v !! j =
  if decide (i = j ∧ i < length arr) then Some (clamp v) else arr !! j.
Proof. apply list_lookup_insert. Qed.

Lemma lookup_u8c_store_ne arr i v j : i ≠ j → u8c_store arr i v !! j = arr !! j.
Proof. intros. by apply list_lookup_insert_ne. Qed.

Lemma lookup_u8c_store_eq arr i v :
  i < length arr → u8c_store arr i v !! i = Some (clamp v).
Proof. intros. by apply list_lookup_insert_eq. Qed.

Lemma Forall_u8c_store arr i v :
  Forall is_byte arr → Forall is_byte (u8c_store arr i v).
Proof.
  intros H. apply Forall_lookup. intros j x. rewrite lookup_u8c_store.
  case_decide; [intros [= <-]; apply clamp_is_byte|].
  intros Hx. by eapply Forall_lookup_1 in H.
Qed.

Lemma length_u8c_new n : length (u8c_new n) = n.
Proof. apply length_replicate. Qed.

Lemma Forall_u8c_new n : Forall is_byte (u8c_new n).
Proof. apply Forall_replicate. unfold is_byte. lia. Qed.

Lemma lookup_byte (arr : list Z) j v :
  Forall is_byte arr → arr !! j = Some v → is_byte v.
Proof. intros H Hj. by eapply Forall_lookup_1 in H. Qed.


(** Every byte is one of the 256 values, so a decidable property of bytes
    can be checked by running through them. *)
Lemma byte_forall (P : Z → Prop) `{!∀ z, Decision (P z)} :
  bool_decide (Forall P (Z.of_nat <$> seq 0 256)) = true → ∀ v, is_byte v → P v.
Proof.
  intros HP%bool_decide_eq_true_1 v Hv. eapply Forall_forall in HP; [exact HP|].
  apply list_elem_of_fmap. exists (Z.to_nat v). split; [unfold is_byte in Hv; lia|].
  apply elem_of_seq. unfold is_byte in Hv. lia.
Qed.

(** ** InvertCodec *)

Lemma invert_byte v :
  is_byte v → clamp (InvertCodec.invert (Some v)) = Z.lxor v 255.
Proof. revert v. apply (byte_forall _). by vm_compute. Qed.

Lemma lxor_255_byte v : is_byte v → is_byte (Z.lxor v 255).
Proof. revert v. apply (byte_forall _). by vm_compute. Qed.

Lemma complement_rgb_involutive j v : complement_rgb j (complement_rgb j v) = v.
Proof.
  unfold complement_rgb. case_decide; [done|].
  by rewrite Z.lxor_assoc, Z.lxor_nilpotent, Z.lxor_0_r.
Qed.

Lemma complement_rgb_byte j v : is_byte v → is_byte (complement_rgb j v).
Proof. unfold complement_rgb. case_decide; [done|apply lxor_255_byte]. Qed.

Lemma inverted_upto_store data0 m data :
  Forall is_byte data0 → m `mod` 4 ≠ 3 →
  inverted_upto data0 m data →
  inverted_upto data0 (S m) (u8c_store data m (InvertCodec.invert (data !! m))).
Proof.
  intros Hbytes Hm [Hlen Hd]. split; [by rewrite length_u8c_store|].
  intros j. rewrite lookup_u8c_store. case_decide as Hj.
  - destruct Hj as [<- Hj]. rewrite decide_True by lia.
    rewrite Hd, decide_False by lia.
    destruct (lookup_lt_is_Some_2 data0 m ltac:(lia)) as [v Hv].
    rewrite Hv. cbn [fmap option_fmap option_map]. rewrite invert_byte by (by eapply lookup_byte).
    unfold complement_rgb. by rewrite decide_False.
  - rewrite Hd. destruct (decide (j = m)) as [->|].
    + rewrite decide_False, decide_True by lia.
      rewrite (lookup_ge_None_2 data0); [done|lia].
    + repeat case_decide; try done; lia.
Qed.

Lemma inverted_upto_alpha data0 m data :
  m `mod` 4 = 3 → inverted_upto data0 m data → inverted_upto data0 (S m) data.
Proof.
  intros Hm [Hlen Hd]. split; [done|]. intros j. rewrite Hd.
  destruct (decide (j = m)) as [->|].
  - rewrite decide_False, decide_True by lia.
    destruct (data0 !! m); [|done]. unfold complement_rgb. simpl.
    by rewrite decide_True.
  - repeat case_decide; try done; lia.
Qed.

Lemma inverted_upto_body data0 t i data :
  Forall is_byte data0 → i = 4 * t →
  inverted_upto data0 (4 * t) data →
  inverted_upto data0 (4 * S t)
    (let data := u8c_store data i (InvertCodec.invert (data !! i)) in
     let data := u8c_store data (i + 1) (InvertCodec.invert (data !! (i + 1))) in
     let data := u8c_store data (i + 2) (InvertCodec.invert (data !! (i + 2))) in
     data).
Proof.
  intros Hbytes -> Hd. cbv zeta.
  assert (∀ c, c < 3 → (c + 4 * t) `mod` 4 ≠ 3) as Hc.
  { intros c Hc. replace (c + 4 * t) with (c + t * 4) by lia.
    rewrite Nat.Div0.mod_add, Nat.mod_small; lia. }
  replace (4 * S t) with (S (3 + 4 * t)) by lia.
  replace (4 * t + 1) with (1 + 4 * t) by lia.
  replace (4 * t + 2) with (2 + 4 * t) by lia.
  apply inverted_upto_alpha.
  { replace (3 + 4 * t) with (3 + t * 4) by lia. by rewrite Nat.Div0.mod_add. }
  apply (inverted_upto_store _ (2 + 4 * t)); [done|apply Hc; lia|].
  apply (inverted_upto_store _ (1 + 4 * t)); [done|apply Hc; lia|].
  apply (inverted_upto_store _ (0 + 4 * t)); [done|apply Hc; lia|done].
Qed.

Lemma invertColor_lookup (imgData : ImageData) j :
  Forall is_byte (data imgData) →
  data (InvertCodec._invertColor imgData) !! j
  = complement_rgb j <$> data imgData !! j.
Proof.
  intros Hbytes. unfold InvertCodec._invertColor, with_data, data at 1.
  set (data0 := data imgData) in *.
  assert (∃ k, length data0 ≤ 0 + k * 4 ∧ ∀ t, t < k → 0 + t * 4 < length data0)
    as (k & Hstop & Hlt).
  { exists ((length data0 + 3) / 4). split; [|intros t Ht];
      pose proof (Nat.div_mod (length data0 + 3) 4 ltac:(lia));
      pose proof (Nat.mod_upper_bound (length data0 + 3) 4 ltac:(lia)); lia. }
  match goal with |- for_range _ _ _ ?b _ !! _ = _ => set (body := b) end.
  pose proof (for_range_ind (λ t, inverted_upto data0 (4 * t)) k 0 (length data0) 4
    body data0 ltac:(lia) Hstop Hlt) as Hloop.
  destruct Hloop as [Hlen Hloop].
  - split; [done|]. intros i. by rewrite decide_False by lia.
  - intros t d Ht Hd. by apply inverted_upto_body; [|lia|].
  - rewrite Hloop. case_decide; [done|].
    rewrite (lookup_ge_None_2 data0); [done|lia].
Qed.

Lemma invertColor_eq (imgData : ImageData) :
  Forall is_byte (data imgData) →
  InvertCodec._invertColor imgData
  = with_data imgData (imap complement_rgb (data imgData)).
Proof.
  intros Hbytes. unfold with_data.
  replace (InvertCodec._invertColor imgData) with
    (with_data imgData (data (InvertCodec._invertColor imgData))) by done.
  unfold with_data. f_equal. apply list_eq. intros j.
  rewrite invertColor_lookup by done. by rewrite list_lookup_imap.
Qed.

(** C6: on every RGBA pixel buffer, InvertCodec's encode and decode are the
    same operation; it keeps the dimensions, replaces every R, G and B byte
    by its value XOR 0xFF and leaves every alpha byte as it is; applied
    twice it gives back the original buffer, byte for byte. *)
Theorem invert_roundtrip (imgData : ImageData) :
  Forall is_byte (data imgData) →
  InvertCodec._doEncrypt imgData = InvertCodec._doDecrypt imgData ∧
  width (InvertCodec._doEncrypt imgData) = width imgData ∧
  height (InvertCodec._doEncrypt imgData) = height imgData ∧
  (∀ j v, data imgData !! j = Some v →
     data (InvertCodec._doEncrypt imgData) !! j
     = Some (if decide (j `mod` 4 = 3) then v else Z.lxor v 255)) ∧
  InvertCodec._doDecrypt (InvertCodec._doEncrypt imgData) = imgData.
Proof.
  intros Hbytes. unfold InvertCodec._doEncrypt, InvertCodec._doDecrypt.
  split_and!; try done.
  - intros j v Hv. by rewrite invertColor_lookup, Hv.
  - rewrite (invertColor_eq imgData) by done.
    rewrite invertColor_eq.
    + destruct imgData as [w h d]. unfold with_data. simpl. f_equal.
      apply list_eq. intros j. rewrite !list_lookup_imap.
      destruct (d !! j); [|done]. simpl. by rewrite complement_rgb_involutive.
    + simpl. apply Forall_lookup. intros j v. rewrite list_lookup_imap.
      destruct (data imgData !! j) eqn:Hj; [|done]. intros [= <-].
      apply complement_rgb_byte. by eapply lookup_byte.
Qed.

Lemma invert_roundtrip_witness :
  InvertCodec._doDecrypt
    (InvertCodec._doEncrypt (mkImageData 1 2 [10; 20; 30; 255; 0; 128; 255; 7]%Z))
  = mkImageData 1 2 [10; 20; 30; 255; 0; 128; 255; 7]%Z.
Proof.
  apply (invert_roundtrip (mkImageData 1 2 [10; 20; 30; 255; 0; 128; 255; 7]%Z)).
  simpl. repeat constructor; unfold is_byte; lia.
Defined.

(** ** RandomSequence *)

Section random_sequence.
Context `{!Rng}.

Lemma fisher_yates_Permutation k pool st :
  k = length pool → RandomSequence.fisher_yates k pool st ≡ₚ pool.
Proof.
  revert pool st. induction k as [|k IH]; intros pool st Hk; simpl.
  - by destruct pool.
  - set (pos := Z.to_nat (rng_step st `mod` Z.of_nat (length pool))).
    assert (pos < length pool) as Hpos.
    { subst pos. pose proof (Z.mod_pos_bound (rng_step st) (Z.of_nat (length pool))). lia. }
    destruct (lookup_lt_is_Some_2 pool pos Hpos) as [v Hv]. rewrite Hv.
    transitivity (v :: delete pos pool); [|symmetry; by apply delete_Permutation].
    f_equiv.
    apply IH. rewrite length_delete by eauto. lia.
Qed.

Lemma permutation_Permutation n seed :
  RandomSequence.permutation n seed ≡ₚ seq 0 n.
Proof. apply fisher_yates_Permutation. by rewrite length_seq. Qed.

Lemma length_permutation n seed : length (RandomSequence.permutation n seed) = n.
Proof. by rewrite permutation_Permutation, length_seq. Qed.

Lemma NoDup_permutation n seed : NoDup (RandomSequence.permutation n seed).
Proof. rewrite permutation_Permutation. apply NoDup_seq. Qed.

Lemma elem_of_permutation n seed x : x ∈ RandomSequence.permutation n seed ↔ x < n.
Proof. rewrite permutation_Permutation, elem_of_seq. lia. Qed.

(** The [j]-th output, for [j] below [n]. *)
Lemma permutation_lookup n seed j :
  j < n → ∃ p, RandomSequence.permutation n seed !! j = Some p ∧ p < n.
Proof.
  intros Hj. destruct (lookup_lt_is_Some_2 (RandomSequence.permutation n seed) j) as [p Hp].
  { by rewrite length_permutation. }
  exists p. split; [done|]. apply (elem_of_permutation n seed).
  by eapply list_elem_of_lookup_2.
Qed.

Lemma permutation_inj n seed i j p :
  RandomSequence.permutation n seed !! i = Some p →
  RandomSequence.permutation n seed !! j = Some p → i = j.
Proof. apply NoDup_lookup, NoDup_permutation. Qed.

Lemma next_produced n seed c :
  c < n →
  ∃ p, RandomSequence.permutation n seed !! c = Some p ∧ p < n ∧
       RandomSequence.next (RandomSequence.mk n seed c)
       = Some (p, RandomSequence.mk n seed (S c)).
Proof.
  intros Hc. destruct (permutation_lookup n seed c Hc) as (p & Hp & Hlt).
  exists p. split_and!; [done..|]. unfold RandomSequence.next. simpl. by rewrite Hp.
Qed.

Lemma draw_take_drop n seed c k :
  c + k ≤ n →
  RandomSequence.draw k (RandomSequence.mk n seed c)
  = Some (take k (drop c (RandomSequence.permutation n seed)),
          RandomSequence.mk n seed (c + k)).
Proof.
  revert c. induction k as [|k IH]; intros c Hc; simpl.
  - by rewrite Nat.add_0_r.
  - destruct (next_produced n seed c ltac:(lia)) as (p & Hp & _ & ->). simpl.
    rewrite IH by lia. simpl.
    rewrite (drop_S _ p c Hp). simpl. do 3 f_equal. lia.
Qed.

Lemma draw_exhausted n seed c k :
  c ≤ n → n < c + k → RandomSequence.draw k (RandomSequence.mk n seed c) = None.
Proof.
  revert c. induction k as [|k IH]; intros c Hc Hk; [lia|]. simpl.
  destruct (decide (c < n)) as [Hlt|Hge].
  - destruct (next_produced n seed c Hlt) as (p & _ & _ & ->). simpl.
    by rewrite IH by lia.
  - unfold RandomSequence.next. simpl.
    rewrite lookup_ge_None_2; [done|]. rewrite length_permutation. lia.
Qed.

(** C1: for every [(n, seed)], [n] successive calls to [next()] on the
    sequence constructed with [(n, seed)] succeed and yield every integer
    of [[0, n)] exactly once; and the outputs of any number [k] of calls
    are a function of [(n, seed)] alone: the first [k] elements of
    [permutation n seed], the calls failing when [k] exceeds [n]. *)
Theorem permutation_sequence_bijection n seed :
  (∃ outs s',
     RandomSequence.draw n (RandomSequence.new n seed) = Some (outs, s') ∧
     length outs = n ∧ NoDup outs ∧ (∀ x, x ∈ outs ↔ x < n)) ∧
  (∀ k, fst <$> RandomSequence.draw k (RandomSequence.new n seed)
        = if decide (k ≤ n) then Some (take k (RandomSequence.permutation n seed))
          else None).
Proof.
  unfold RandomSequence.new. split.
  - rewrite draw_take_drop by lia. eexists _, _. split; [done|].
    rewrite drop_0, firstn_all2 by (by rewrite length_permutation).
    split_and!; [apply length_permutation|apply NoDup_permutation|apply elem_of_permutation].
  - intros k. case_decide.
    + by rewrite draw_take_drop, drop_0 by lia.
    + by rewrite draw_exhausted by lia.
Qed.
End random_sequence.

(** ** The codec registry *)

Lemma createCodec_known name c :
  codecClasses !! name = Some (codec_class c) →
  ∀ seed, createCodec (mkConfig name seed) = Some (codec_instance c).
Proof. intros Hc seed. unfold createCodec, get_property. simpl. by rewrite Hc. Qed.

Lemma createCodec_default name seed :
  name ∉ ["InvertCodec"; "ShuffleRgbCodec"; "ShuffleBlockCodec"; "MosaicCodec"]%string →
  Object_prototype !! name = None →
  createCodec (mkConfig name seed) = Some (codec_instance class_ShuffleBlockCodec).
Proof.
  intros Hname Hproto. unfold createCodec, get_property, codecClasses. simpl.
  rewrite !not_elem_of_cons in Hname. destruct_and!.
  rewrite !lookup_insert_ne, lookup_empty by done. by rewrite Hproto.
Qed.

(** C9, at a selector that [codecClasses] inherits from [Object.prototype]:
    the selector "constructor" is none of the four known names, and
    [createCodec] returns a plain object, not a block-shuffle codec. *)
Theorem createCodec_inherited_selector seed :
  ("constructor"%string
     ∉ ["InvertCodec"; "ShuffleRgbCodec"; "ShuffleBlockCodec"; "MosaicCodec"]%string) ∧
  createCodec (mkConfig "constructor" seed) = Some plain_object ∧
  createCodec (mkConfig "constructor" seed) ≠ Some (codec_instance class_ShuffleBlockCodec) ∧
  createCodec (mkConfig "toString" seed) = None.
Proof.
  split_and!; [|done..].
  rewrite !not_elem_of_cons. split_and!; try done. apply not_elem_of_nil.
Qed.

(** ** The container of MosaicCodec *)

Lemma length_be32 n : length (be32 n) = 4.
Proof. done. Qed.

Lemma lookup_after_prefix (pre l : list Z) k :
  (pre ++ l) !! (length pre + k) = l !! k.
Proof. rewrite lookup_app_r by lia. f_equal. lia. Qed.

Lemma getUint32_middle pre b0 b1 b2 b3 tail :
  getUint32 (pre ++ b0 :: b1 :: b2 :: b3 :: tail) (length pre)
  = Some (((b0 * 256 + b1) * 256 + b2) * 256 + b3)%Z.
Proof.
  unfold getUint32. rewrite (list_lookup_middle pre _ b0 (length pre) eq_refl). simpl.
  rewrite lookup_after_prefix. simpl.
  rewrite lookup_after_prefix. simpl.
  by rewrite lookup_after_prefix.
Qed.

Lemma getUint32_be32 pre n tail :
  (0 ≤ n < 2 ^ 32)%Z →
  getUint32 (pre ++ be32 n ++ tail) (length pre) = Some n.
Proof.
  intros Hn. unfold be32. simpl app. rewrite getUint32_middle. f_equal.
  change (2 ^ 24)%Z with 16777216%Z. change (2 ^ 16)%Z with 65536%Z.
  change (2 ^ 8)%Z with 256%Z. change (2 ^ 32)%Z with 4294967296%Z in Hn.
  Z.div_mod_to_equations. lia.
Qed.

Lemma length_chunk_bytes c :
  length (chunk_bytes c) = 8 + length (chunk_data c) + 4.
Proof. unfold chunk_bytes. rewrite !length_app, !length_be32. lia. Qed.

Lemma chunk_header pre c tail :
  wf_chunk c →
  getUint32 (pre ++ chunk_bytes c ++ tail) (length pre)
    = Some (Z.of_nat (length (chunk_data c))) ∧
  getUint32 (pre ++ chunk_bytes c ++ tail) (length pre + 4) = Some (chunk_type c).
Proof.
  intros [Hty Hlen]. unfold chunk_bytes. split.
  - rewrite <- !(assoc_L (++)). apply getUint32_be32. lia.
  - rewrite <- !(assoc_L (++)).
    rewrite (assoc_L (++) pre). 
    replace (length pre + 4) with (length (pre ++ be32 (Z.of_nat (length (chunk_data c)))))
      by (rewrite length_app, length_be32; lia).
    by apply getUint32_be32.
Qed.

Lemma skip_chunks_S fuel fileView offset :
  MosaicCodec.skip_chunks (S fuel) fileView offset =
  match getUint32 fileView offset, getUint32 fileView (offset + 4) with
  | Some dataLength, Some typeCode =>
      if decide (typeCode ≠ 0x49454E44%Z)
      then MosaicCodec.skip_chunks fuel fileView (offset + (8 + Z.to_nat dataLength + 4))
      else Returned (offset + (8 + Z.to_nat dataLength + 4))
  | _, _ => Thrown
  end.
Proof. done. Qed.

(** Walking the chunks of a PNG file ends right after its IEND chunk. *)
Lemma skip_chunks_png fuel pre chunks iend tail :
  Forall (λ c, wf_chunk c ∧ chunk_type c ≠ IEND) chunks →
  wf_chunk iend → chunk_type iend = IEND →
  length chunks < fuel →
  MosaicCodec.skip_chunks fuel
    (pre ++ concat (chunk_bytes <$> chunks) ++ chunk_bytes iend ++ tail) (length pre)
  = Returned (length pre + length (concat (chunk_bytes <$> chunks))
              + length (chunk_bytes iend)).
Proof.
  intros Hcs Hiend Hty. revert fuel pre.
  induction Hcs as [|c cs [Hc Hne] _ IH]; intros fuel pre Hfuel;
    (destruct fuel as [|fuel]; [simpl in Hfuel; lia|]);
    rewrite skip_chunks_S; cbn [fmap list_fmap concat app length].
  - destruct (chunk_header pre iend tail Hiend) as [-> ->].
    rewrite decide_False by (unfold IEND in Hty; rewrite Hty; tauto).
    f_equal. rewrite length_chunk_bytes. lia.
  - rewrite <- !(assoc_L (++)).
    destruct (chunk_header pre c (concat (chunk_bytes <$> cs) ++ chunk_bytes iend ++ tail) Hc)
      as [-> ->].
    rewrite decide_True by done.
    specialize (IH fuel (pre ++ chunk_bytes c) ltac:(simpl in Hfuel; lia)).
    rewrite <- !(assoc_L (++)) in IH. rewrite !length_app in IH.
    rewrite length_chunk_bytes in IH.
    rewrite Nat2Z.id, !length_app, length_chunk_bytes.
    etrans; [etrans; [|exact IH]|]; f_equal; lia.
Qed.

Lemma length_chunks_ge chunks :
  12 * length chunks ≤ length (concat (chunk_bytes <$> chunks)).
Proof.
  induction chunks as [|c cs IH]; [simpl; lia|].
  rewrite fmap_cons. cbn [concat length].
  rewrite length_app, length_chunk_bytes. lia.
Qed.

Lemma decryptToUrl_body_signature (rest : list Z) :
  MosaicCodec.decryptToUrl_body (PNG_SIGNATURE ++ rest) =
  match MosaicCodec.skip_chunks (length (PNG_SIGNATURE ++ rest)) (PNG_SIGNATURE ++ rest) 8 with
  | Returned offset =>
      if decide (length (PNG_SIGNATURE ++ rest) ≤ offset) then Returned None
      else Returned (Some (drop offset (PNG_SIGNATURE ++ rest)))
  | Thrown => Thrown
  | Diverged => Diverged
  end.
Proof. done. Qed.

(** The container code on a PNG file followed by [tail]. *)
Lemma decryptToUrl_png png tail :
  is_png png →
  MosaicCodec.decryptToUrl (png ++ tail)
  = Returned (if decide (tail = []) then None else Some tail).
Proof.
  intros (chunks & iend & Hcs & Hiend & Hty & ->).
  unfold MosaicCodec.decryptToUrl, png_file.
  rewrite <- !(assoc_L (++)). rewrite decryptToUrl_body_signature.
  rewrite (skip_chunks_png _ PNG_SIGNATURE) by
    (try done; pose proof (length_chunks_ge chunks); rewrite !length_app; simpl; lia).
  rewrite !length_app. case_decide as Hlen.
  - rewrite decide_True; [done|]. destruct tail; [done|simpl in Hlen; lia].
  - rewrite decide_False by (intros ->; simpl in Hlen; lia). cbn [try_catch].
    do 2 f_equal.
    rewrite !(assoc_L (++)). rewrite drop_app_length'; [done|].
    rewrite !length_app. lia.
Qed.

Lemma getUint32_Some_length view offset x :
  getUint32 view offset = Some x → offset + 4 ≤ length view.
Proof.
  unfold getUint32. intros Hx.
  destruct (view !! offset); simpl in Hx; [|done].
  destruct (view !! (offset + 1)); simpl in Hx; [|done].
  destruct (view !! (offset + 2)); simpl in Hx; [|done].
  destruct (view !! (offset + 3)) eqn:H3; simpl in Hx; [|done].
  apply lookup_lt_Some in H3. lia.
Qed.

(** The chunk walk ends within its fuel. *)
Lemma skip_chunks_terminates fuel view offset :
  length view ≤ offset + fuel →
  MosaicCodec.skip_chunks (S fuel) view offset ≠ Diverged.
Proof.
  revert offset. induction fuel as [|fuel IH]; intros offset Hlen;
    rewrite skip_chunks_S;
    destruct (getUint32 view offset) as [dataLength|] eqn:H0; [|done| |done];
    destruct (getUint32 view (offset + 4)) as [typeCode|] eqn:H4; try done.
  - apply getUint32_Some_length in H4. lia.
  - case_decide; [|done]. apply IH. lia.
Qed.

Lemma skip_chunks_runs_past_end view offset :
  walk_runs_past_end view offset →
  ∀ fuel, length view ≤ offset + fuel →
  MosaicCodec.skip_chunks (S fuel) view offset = Thrown.
Proof.
  induction 1 as [offset Hcut|offset dataLength typeCode H0 H4 Hne _ IH];
    intros fuel Hlen; rewrite skip_chunks_S.
  - destruct (getUint32 view offset); [|done].
    destruct (getUint32 view (offset + 4)) eqn:H4; [|done].
    apply getUint32_Some_length in H4. lia.
  - rewrite H0, H4. rewrite decide_True by done.
    apply getUint32_Some_length in H4.
    destruct fuel as [|fuel]; [lia|]. apply IH. lia.
Qed.

Lemma decryptToUrl_total bytes :
  ∃ result, MosaicCodec.decryptToUrl bytes = Returned result.
Proof.
  unfold MosaicCodec.decryptToUrl, MosaicCodec.decryptToUrl_body. cbv zeta.
  destruct (getUint32 bytes 0) as [magic0|]; [|by eexists].
  case_decide; [by eexists|].
  destruct (getUint32 bytes 4) as [magic1|] eqn:H4; [|by eexists].
  case_decide; [by eexists|].
  apply getUint32_Some_length in H4.
  destruct (length bytes) as [|fuel] eqn:Hlen; [lia|].
  pose proof (skip_chunks_terminates fuel bytes 8 ltac:(lia)) as Hterm.
  destruct (MosaicCodec.skip_chunks (S fuel) bytes 8); [|by eexists|done].
  case_decide; by eexists.
Qed.

Lemma decryptToUrl_invalid bytes :
  Forall is_byte bytes → InvalidContainer bytes →
  MosaicCodec.decryptToUrl bytes = Returned None.
Proof.
  unfold InvalidContainer, MosaicCodec.decryptToUrl. intros Hbytes Hsig.
  unfold MosaicCodec.decryptToUrl_body. cbv zeta.
  destruct (getUint32 bytes 0) as [magic0|] eqn:H0; [|done].
  case_decide as Hmagic0; [done|].
  destruct (getUint32 bytes 4) as [magic1|] eqn:H4; [|done].
  case_decide as Hmagic1; [done|].
  exfalso. apply Hsig.
  destruct bytes as [|b0 [|b1 [|b2 [|b3 [|b4 [|b5 [|b6 [|b7 rest]]]]]]]]; try done.
  injection H0 as <-. injection H4 as <-.
  repeat (apply Forall_cons in Hbytes as [? Hbytes]). unfold is_byte in *.
  unfold PNG_SIGNATURE. simpl. repeat f_equal; lia.
Qed.

Lemma decryptToUrl_truncated bytes :
  TruncatedContainer bytes → MosaicCodec.decryptToUrl bytes = Returned None.
Proof.
  intros [Hsig Hwalk]. unfold MosaicCodec.decryptToUrl.
  rewrite <- (take_drop 8 bytes) at 1. rewrite Hsig, decryptToUrl_body_signature.
  rewrite <- Hsig, take_drop.
  destruct (length bytes) as [|fuel] eqn:Hlen.
  { apply (f_equal length) in Hsig. rewrite length_take, Hlen in Hsig. done. }
  rewrite (skip_chunks_runs_past_end bytes 8 Hwalk fuel); [done|lia].
Qed.

(** C4: the output of MosaicCodec's encode is the rendered PNG file of the
    mosaicked image followed by the bytes of the input file [F], and
    decode of that output walks the chunks of the PNG to its IEND chunk
    and returns exactly the bytes of [F].  The canvas renders a PNG file,
    and an input file that loaded as an image is not empty. *)
Theorem mosaic_container_recovery (render : ImageData → list Z)
    (imgData : ImageData) (F : list Z) :
  is_png (render (MosaicCodec._doEncrypt imgData)) → F ≠ [] →
  MosaicCodec.encryptToBlob render imgData F
    = render (MosaicCodec._doEncrypt imgData) ++ F ∧
  MosaicCodec.skip_chunks (length (MosaicCodec.encryptToBlob render imgData F))
    (MosaicCodec.encryptToBlob render imgData F) 8
    = Returned (length (render (MosaicCodec._doEncrypt imgData))) ∧
  MosaicCodec.decryptToUrl (MosaicCodec.encryptToBlob render imgData F)
    = Returned (Some F).
Proof.
  intros Hpng HF. unfold MosaicCodec.encryptToBlob. split_and!; [done| |].
  - destruct Hpng as (chunks & iend & Hcs & Hiend & Hty & ->).
    unfold png_file. rewrite <- !(assoc_L (++)).
    rewrite (skip_chunks_png _ PNG_SIGNATURE) by
      (try done; pose proof (length_chunks_ge chunks); rewrite !length_app; simpl; lia).
    f_equal. rewrite !length_app. lia.
  - rewrite decryptToUrl_png by done. by rewrite decide_False.
Qed.

Lemma is_png_sample_png : is_png sample_png.
Proof.
  eexists _, _. split_and!; [| | |done]; [|done..].
  repeat constructor; done.
Defined.

Lemma mosaic_container_recovery_witness :
  MosaicCodec.decryptToUrl
    (MosaicCodec.encryptToBlob (λ _, sample_png) (mkImageData 1 1 [1; 2; 3; 255]%Z)
       [0xFF; 0xD8; 0xFF]%Z)
  = Returned (Some [0xFF; 0xD8; 0xFF]%Z).
Proof.
  apply (mosaic_container_recovery (λ _, sample_png) (mkImageData 1 1 [1; 2; 3; 255]%Z)
           [0xFF; 0xD8; 0xFF]%Z); [apply is_png_sample_png|done].
Defined.

(** C8: on every byte sequence MosaicCodec's decode returns, it throws
    nothing; and on a sequence whose first 8 bytes are not the PNG
    signature, on one whose chunk walk runs past the end before an IEND
    chunk, and on a PNG file with nothing after its IEND chunk, what it
    returns is the same empty result. *)
Theorem mosaic_decode_failures_recovered (bytes : list Z) :
  Forall is_byte bytes →
  (∃ result, MosaicCodec.decryptToUrl bytes = Returned result) ∧
  (InvalidContainer bytes → MosaicCodec.decryptToUrl bytes = Returned None) ∧
  (TruncatedContainer bytes → MosaicCodec.decryptToUrl bytes = Returned None) ∧
  (NoEmbeddedPayload bytes → MosaicCodec.decryptToUrl bytes = Returned None).
Proof.
  intros Hbytes. split_and!.
  - apply decryptToUrl_total.
  - by apply decryptToUrl_invalid.
  - apply decryptToUrl_truncated.
  - intros Hpng. rewrite <- (app_nil_r bytes). by rewrite decryptToUrl_png.
Qed.

Lemma mosaic_decode_failures_recovered_witness :
  MosaicCodec.decryptToUrl [1; 2; 3]%Z = Returned None ∧
  MosaicCodec.decryptToUrl
    (PNG_SIGNATURE ++ chunk_bytes (mkChunk 0x49484452%Z [7; 7]%Z 0x01020304%Z))
    = Returned None ∧
  MosaicCodec.decryptToUrl sample_png = Returned None.
Proof.
  split_and!.
  - refine (proj1 (proj2 (mosaic_decode_failures_recovered [1; 2; 3]%Z _)) _).
    + apply (bool_decide_unpack _). by vm_compute.
    + unfold InvalidContainer, PNG_SIGNATURE. simpl. intros [=].
  - refine (proj1 (proj2 (proj2 (mosaic_decode_failures_recovered
      (PNG_SIGNATURE ++ chunk_bytes (mkChunk 0x49484452%Z [7; 7]%Z 0x01020304%Z)) _))) _).
    + apply (bool_decide_unpack _). by vm_compute.
    + split; [done|].
      eapply walk_skip_chunk; [reflexivity|reflexivity|done|].
      apply walk_no_header. simpl. lia.
  - refine (proj2 (proj2 (proj2 (mosaic_decode_failures_recovered sample_png _))) _).
    + apply (bool_decide_unpack _). by vm_compute.
    + apply is_png_sample_png.
Defined.

(** ** ShuffleBlockCodec *)

(** One row of a block copy. *)
Lemma copy_row (src : list Z) a b n (dst : list Z) :
  let dst' := for_range 0 n 1 (λ i dstData,
                u8c_store dstData (a + i) (src !! (b + i))) dst in
  length dst' = length dst ∧
  ∀ j, dst' !! j =
       if decide (a ≤ j < a + n ∧ j < length dst)
       then Some (clamp (src !! (b + (j - a)))) else dst !! j.
Proof.
  cbv zeta.
  apply (for_count_ind (λ t d, length d = length dst ∧
    ∀ j, d !! j = if decide (a ≤ j < a + t ∧ j < length dst)
                  then Some (clamp (src !! (b + (j - a)))) else dst !! j) n).
  - split; [done|]. intros j. by rewrite decide_False by lia.
  - intros t d Ht [Hlen Hd]. split; [by rewrite length_u8c_store|].
    intros j. rewrite lookup_u8c_store, Hd, Hlen.
    destruct (decide (a + t = j)) as [<-|].
    + replace (a + t - a) with t by lia.
      repeat case_decide; try done; lia.
    + repeat case_decide; try done; lia.
Qed.

Lemma copyBlock_spec dst src dstBlockX dstBlockY srcBlockX srcBlockY :
  8 ≤ width dst →
  let iDst := (dstBlockY * width dst + dstBlockX) * 8 * 4 in
  let iSrc := (srcBlockY * width src + srcBlockX) * 8 * 4 in
  let dst' := ShuffleBlockCodec._copyBlock dst dstBlockX dstBlockY src srcBlockX srcBlockY in
  width dst' = width dst ∧ height dst' = height dst ∧
  length (data dst') = length (data dst) ∧
  (∀ y i, y < 8 → i < 32 → iDst + y * (width dst * 4) + i < length (data dst) →
     data dst' !! (iDst + y * (width dst * 4) + i)
     = Some (clamp (data src !! (iSrc + y * (width src * 4) + i)))) ∧
  (∀ j, (∀ y i, y < 8 → i < 32 → j ≠ iDst + y * (width dst * 4) + i) →
     data dst' !! j = data dst !! j).
Proof.
  intros Hw iDst iSrc. cbv zeta. unfold ShuffleBlockCodec._copyBlock. fold iDst iSrc.
  match goal with |- context [for_range 0 8 1 ?b ?s] =>
    assert (rows_copied dst src iDst iSrc 8 (for_range 0 8 1 b s)) as Hloop end.
  { apply for_count_ind.
    - unfold rows_copied. split_and!; [lia|lia|done|intros; lia|done].
    - intros t [[d iD] iS] Ht (-> & -> & Hlen & Hin & Hout).
      cbv beta iota zeta.
      destruct (copy_row (data src) (iDst + t * (width dst * 4))
                  (iSrc + t * (width src * 4)) (8 * 4) d) as [Hlen' Hrow].
      cbv zeta in Hlen', Hrow. unfold rows_copied.
      split_and!; [lia|lia|congruence| |].
      + intros y i Hy Hi Hbound. rewrite Hrow.
        destruct (decide (y = t)) as [->|].
        * rewrite decide_True by lia. do 3 f_equal. lia.
        * rewrite decide_False by nia. apply Hin; [lia|done|done].
      + intros j Hj. rewrite Hrow. case_decide as Hc.
        * exfalso. apply (Hj t (j - (iDst + t * (width dst * 4)))); lia.
        * apply Hout. intros y i Hy Hi. apply Hj; lia. }
  destruct (for_range 0 8 1 _ _) as [[d iD] iS].
  destruct Hloop as (_ & _ & Hlen & Hin & Hout). by split_and!.
Qed.
Lemma radix_inj R a b a' b' :
  b < R → b' < R → a * R + b = a' * R + b' → a = a' ∧ b = b'.
Proof.
  intros Hb Hb' Heq.
  assert (a = a') as -> by nia. lia.
Qed.

Lemma block_byte_inj bw bx by_ y i bx' by' y' i' :
  bx < bw → bx' < bw → y < 8 → y' < 8 → i < 32 → i' < 32 →
  block_byte (bw * 8) bx by_ y i = block_byte (bw * 8) bx' by' y' i' →
  bx = bx' ∧ by_ = by' ∧ y = y' ∧ i = i'.
Proof.
  unfold block_byte. intros Hbx Hbx' Hy Hy' Hi Hi' Heq.
  destruct (radix_inj (bw * 32) (by_ * 8 + y) (bx * 32 + i) (by' * 8 + y') (bx' * 32 + i'))
    as [H1 H2]; [lia|lia|lia|]. lia.
Qed.

Lemma block_byte_lt bw bh bx by_ y i :
  bx < bw → by_ < bh → y < 8 → i < 32 →
  block_byte (bw * 8) bx by_ y i < bw * 8 * (bh * 8) * 4.
Proof.
  unfold block_byte. intros Hbx Hby Hy Hi.
  assert ((by_ * 8 + y) * (bw * 32) + (bx * 32 + i) < (bh * 8) * (bw * 32)); [|lia].
  assert (by_ * 8 + y + 1 ≤ bh * 8) as Hr by lia.
  apply (Nat.mul_le_mono_r _ _ (bw * 32)) in Hr. lia.
Qed.

Lemma block_byte_surj bw bh j :
  j < bw * 8 * (bh * 8) * 4 →
  ∃ bx by_ y i, bx < bw ∧ by_ < bh ∧ y < 8 ∧ i < 32 ∧
                j = block_byte (bw * 8) bx by_ y i.
Proof.
  intros Hj. assert (0 < bw) by (destruct bw; lia).
  pose proof (Nat.div_mod j (bw * 32) ltac:(lia)) as Hrow.
  pose proof (Nat.mod_upper_bound j (bw * 32) ltac:(lia)) as Hcol.
  set (row := j / (bw * 32)) in *. set (col := j `mod` (bw * 32)) in *.
  assert (row < bh * 8) as Hrowlt.
  { apply Nat.Div0.div_lt_upper_bound. lia. }
  exists (col / 32), (row / 8), (row `mod` 8), (col `mod` 32).
  pose proof (Nat.div_mod row 8 ltac:(lia)).
  pose proof (Nat.mod_upper_bound row 8 ltac:(lia)).
  pose proof (Nat.div_mod col 32 ltac:(lia)).
  pose proof (Nat.mod_upper_bound col 32 ltac:(lia)).
  unfold block_byte. split_and!; [lia|lia|lia|lia|].
  set (a := row / 8) in *. set (b := col / 32) in *. nia.
Qed.

(** Block numbers and block positions. *)
Lemma block_position bw bh q :
  q < bw * bh → q `mod` bw < bw ∧ q / bw < bh.
Proof.
  intros Hq. assert (0 < bw) by (destruct bw; lia). split.
  - apply Nat.mod_upper_bound. lia.
  - apply Nat.Div0.div_lt_upper_bound. lia.
Qed.

Lemma block_position_inj bw q q' :
  0 < bw → q `mod` bw = q' `mod` bw → q / bw = q' / bw → q = q'.
Proof.
  intros Hbw Hm Hd.
  rewrite (Nat.div_mod q bw), (Nat.div_mod q' bw) by lia. by rewrite Hm, Hd.
Qed.

Lemma block_number bw bx by_ :
  bx < bw → (by_ * bw + bx) `mod` bw = bx ∧ (by_ * bw + bx) / bw = by_.
Proof.
  intros Hbx. split.
  - rewrite Nat.add_comm, Nat.Div0.mod_add. by apply Nat.mod_small.
  - rewrite Nat.div_add_l by lia. rewrite Nat.div_small by done. lia.
Qed.

Section shuffle_block.
Context `{!Rng}.

Lemma blocks_copied_step enc imgData seed bw bh blockX blockY result seq :
  blockX < bw → blockY < bh →
  blocks_copied enc imgData seed bw bh (blockY * bw + blockX) (result, seq) →
  ∃ st',
    ('(index, seq) ← RandomSequence.next seq;
     let newBlockX := index `mod` bw in
     let newBlockY := index / bw in
     Some (copy_direction enc imgData result blockX blockY newBlockX newBlockY, seq))
    = Some st' ∧
    blocks_copied enc imgData seed bw bh (S (blockY * bw + blockX)) st'.
Proof.
  intros Hbx Hby (-> & Hw & Hh & Hlen & Hdone).
  set (k := blockY * bw + blockX) in *.
  assert (k < bw * bh) as Hk by (subst k; nia).
  destruct (next_produced (bw * bh) seed k Hk) as (p & Hp & Hpn & ->).
  eexists. split; [done|]. cbv zeta.
  destruct (block_position bw bh p Hpn) as [HpX HpY].
  destruct (block_number bw blockX blockY Hbx) as [HkX HkY]. fold k in HkX, HkY.
  set (dX := dst_block enc k p `mod` bw). set (dY := dst_block enc k p / bw).
  set (sX := src_block enc k p `mod` bw). set (sY := src_block enc k p / bw).
  assert (copy_direction enc imgData result blockX blockY (p `mod` bw) (p / bw)
          = ShuffleBlockCodec._copyBlock result dX dY imgData sX sY) as ->.
  { subst dX dY sX sY. destruct enc; simpl; by rewrite ?HkX, ?HkY. }
  assert (dst_block enc k p < bw * bh) as Hdn by (destruct enc; done).
  destruct (block_position bw bh _ Hdn) as [HdX HdY]. fold dX dY in HdX, HdY.
  destruct (copyBlock_spec result imgData dX dY sX sY ltac:(lia))
    as (Hw' & Hh' & Hlen' & Hin & Hout).
  rewrite Hw in Hin, Hout.
  split_and!; [done|congruence|congruence|congruence|].
  intros k' p' y i Hk' Hp' Hy Hi.
  destruct (decide (k' = k)) as [->|Hne].
  - assert (p' = p) as -> by congruence.
    apply Hin; [done|done|]. rewrite Hlen.
    by apply block_byte_lt.
  - assert (k' < bw * bh) as Hk'n by lia.
    destruct (permutation_lookup (bw * bh) seed k' Hk'n) as (p'' & Hp'' & Hp'n).
    assert (p'' = p') as -> by congruence.
    assert (dst_block enc k' p' < bw * bh) as Hdn' by (destruct enc; done).
    destruct (block_position bw bh _ Hdn') as [HdX' HdY'].
    rewrite Hout; [apply Hdone; [lia|done..]|].
    intros y' i' Hy' Hi' Heq.
    apply (block_byte_inj bw _ _ y i dX dY y' i') in Heq
      as (HX & HY & _ & _); [|done..].
    assert (dst_block enc k' p' = dst_block enc k p) as Hsame.
    { apply (block_position_inj bw); [lia|done|done]. }
    destruct enc; simpl in Hsame; [|done].
    subst p'. apply Hne. by eapply permutation_inj.
Qed.

Lemma doCommon_spec enc cfg imgData :
  8 ≤ width imgData → 8 ≤ height imgData →
  ∃ result seq,
    ShuffleBlockCodec._doCommon cfg imgData (copy_direction enc imgData) = Some result ∧
    blocks_copied enc imgData (randomSeed cfg) (width imgData / 8) (height imgData / 8)
      (width imgData / 8 * (height imgData / 8)) (result, seq).
Proof.
  intros Hw Hh. unfold ShuffleBlockCodec._doCommon.
  set (bw := width imgData / 8). set (bh := height imgData / 8).
  assert (0 < bw) by (apply Nat.div_str_pos; lia).
  assert (0 < bh) by (apply Nat.div_str_pos; lia).
  unfold createImageData. rewrite decide_False by lia. cbn [mbind option_bind].
  match goal with |- context [for_rangeM 0 bh 1 ?b ?s] =>
    destruct (for_countM_ind
      (λ blockY, blocks_copied enc imgData (randomSeed cfg) bw bh (blockY * bw)) bh b s)
      as ([result seq] & -> & Hdone) end.
  - unfold blocks_copied, RandomSequence.new. cbn [width height data].
    split_and!; [done..|by rewrite length_u8c_new|]. intros; lia.
  - intros blockY st HblockY Hst.
    match goal with |- context [for_rangeM 0 bw 1 ?b ?s] =>
      destruct (for_countM_ind
        (λ blockX, blocks_copied enc imgData (randomSeed cfg) bw bh (blockY * bw + blockX))
        bw b s) as (st' & -> & Hst') end.
    + by rewrite Nat.add_0_r.
    + intros blockX [result seq] HblockX Hrs.
      replace (blockY * bw + S blockX) with (S (blockY * bw + blockX)) by lia.
      by apply blocks_copied_step.
    + exists st'. split; [done|].
      by replace (S blockY * bw) with (blockY * bw + bw) by lia.
  - exists result, seq. split; [done|].
    by replace (bw * bh) with (bh * bw) by lia.
Qed.

Lemma doCommon_dimensions enc cfg imgData :
  8 ≤ width imgData → 8 ≤ height imgData →
  ∃ result,
    ShuffleBlockCodec._doCommon cfg imgData (copy_direction enc imgData) = Some result ∧
    width result = width imgData / 8 * 8 ∧
    height result = height imgData / 8 * 8 ∧
    length (data result) = width result * height result * 4.
Proof.
  intros Hw Hh.
  destruct (doCommon_spec enc cfg imgData Hw Hh)
    as (result & seq & Hrun & _ & Hw' & Hh' & Hlen & _).
  exists result. split_and!; [done..|]. by rewrite Hw', Hh'.
Qed.

(** C7, amended: for every buffer whose width and height are both at
    least 8, encode and decode of ShuffleBlockCodec produce an output of
    exactly floor(width/8)*8 by floor(height/8)*8 pixels. *)
Theorem shuffle_block_crop cfg imgData :
  8 ≤ width imgData → 8 ≤ height imgData →
  (∃ result,
     ShuffleBlockCodec._doEncrypt cfg imgData = Some result ∧
     width result = width imgData / 8 * 8 ∧
     height result = height imgData / 8 * 8 ∧
     length (data result) = width result * height result * 4) ∧
  (∃ result,
     ShuffleBlockCodec._doDecrypt cfg imgData = Some result ∧
     width result = width imgData / 8 * 8 ∧
     height result = height imgData / 8 * 8 ∧
     length (data result) = width result * height result * 4).
Proof.
  intros Hw Hh. split.
  - apply (doCommon_dimensions true cfg imgData Hw Hh).
  - apply (doCommon_dimensions false cfg imgData Hw Hh).
Qed.

(** C2: for every RGBA pixel buffer whose width and height are multiples
    of 8, and every seed, ShuffleBlockCodec's encode succeeds and its
    decode, with the same seed, gives back the original buffer, byte for
    byte. *)
Theorem shuffle_block_roundtrip cfg imgData :
  wf_ImageData imgData →
  width imgData `mod` 8 = 0 → height imgData `mod` 8 = 0 →
  ∃ encrypted,
    ShuffleBlockCodec._doEncrypt cfg imgData = Some encrypted ∧
    ShuffleBlockCodec._doDecrypt cfg encrypted = Some imgData.
Proof.
  intros [Hwpos Hhpos Hlen Hbytes] Hwm Hhm.
  pose proof (Nat.div_mod (width imgData) 8 ltac:(lia)) as Hw.
  pose proof (Nat.div_mod (height imgData) 8 ltac:(lia)) as Hh.
  destruct (doCommon_spec true cfg imgData ltac:(lia) ltac:(lia))
    as (enc & seq & Henc & _ & HwE & HhE & HlenE & HE).
  exists enc. split; [done|].
  destruct (doCommon_spec false cfg enc ltac:(lia) ltac:(lia))
    as (dec & seq' & Hdec & _ & HwD & HhD & HlenD & HD).
  unfold ShuffleBlockCodec._doDecrypt. change (ShuffleBlockCodec._doCommon cfg enc _)
    with (ShuffleBlockCodec._doCommon cfg enc (copy_direction false enc)).
  rewrite Hdec. f_equal.
  set (bw := width imgData / 8) in *. set (bh := height imgData / 8) in *.
  assert (width enc / 8 = bw) as HbwE by (rewrite HwE; apply Nat.div_mul; lia).
  assert (height enc / 8 = bh) as HbhE by (rewrite HhE; apply Nat.div_mul; lia).
  rewrite HbwE, HbhE in *.
  assert (width imgData = bw * 8) as HwI by lia.
  assert (height imgData = bh * 8) as HhI by lia.
  clearbody bw bh. clear Hw Hh Hwm Hhm Henc Hdec.
  destruct dec as [wD hD dD], imgData as [wI hI dI]. simpl in *. subst wD hD wI hI.
  f_equal. apply list_eq. intros j.
  destruct (decide (j < bw * 8 * (bh * 8) * 4)) as [Hj|Hj].
  - destruct (block_byte_surj bw bh j Hj) as (bx & by_ & y & i & Hbx & Hby & Hy & Hi & ->).
    destruct (block_number bw bx by_ Hbx) as [HkX HkY].
    assert (by_ * bw + bx < bw * bh) as Hk by nia.
    destruct (permutation_lookup (bw * bh) (randomSeed cfg) _ Hk) as (p & Hp & Hpn).
    specialize (HD _ p y i Hk Hp Hy Hi). specialize (HE _ p y i Hk Hp Hy Hi).
    simpl in HD, HE. rewrite HkX, HkY in HD, HE. rewrite HwE in HD. rewrite HD, HE.
    destruct (lookup_lt_is_Some_2 dI (block_byte (bw * 8) bx by_ y i) ltac:(lia))
      as [v Hv].
    assert (is_byte v) by (eapply lookup_byte; eauto).
    rewrite Hv. by rewrite !(clamp_byte v).
  - rewrite !lookup_ge_None_2; [done|lia..].
Qed.
End shuffle_block.


Lemma shuffle_block_roundtrip_witness :
  ∃ encrypted,
    @ShuffleBlockCodec._doEncrypt lcg (mkConfig "ShuffleBlockCodec" 2024) (gradient 16 8)
      = Some encrypted ∧
    @ShuffleBlockCodec._doDecrypt lcg (mkConfig "ShuffleBlockCodec" 2024) encrypted
      = Some (gradient 16 8).
Proof.
  apply (@shuffle_block_roundtrip lcg (mkConfig "ShuffleBlockCodec" 2024) (gradient 16 8));
    [wf_by_computation|reflexivity|reflexivity].
Defined.

Lemma shuffle_block_crop_witness :
  ∃ result,
    @ShuffleBlockCodec._doEncrypt lcg (mkConfig "ShuffleBlockCodec" 2024) (gradient 10 10)
      = Some result ∧
    width result = 8 ∧ height result = 8.
Proof.
  destruct (@shuffle_block_crop lcg (mkConfig "ShuffleBlockCodec" 2024) (gradient 10 10))
    as [(result & Hrun & Hw & Hh & _) _]; [simpl; lia|simpl; lia|].
  exists result. split_and!; [exact Hrun|exact Hw|exact Hh].
Defined.

(** C7 as stated fails on a 5x5 buffer: its width is no multiple of 8,
    and encode produces no output at all, the canvas refusing to create
    the 0x0 image. *)
Lemma shuffle_block_crop_counterexample :
  wf_ImageData (gradient 5 5) ∧
  width (gradient 5 5) `mod` 8 ≠ 0 ∧
  ¬ ∃ result,
      @ShuffleBlockCodec._doEncrypt lcg (mkConfig "ShuffleBlockCodec" 2024) (gradient 5 5)
        = Some result ∧
      width result = width (gradient 5 5) / 8 * 8 ∧
      height result = height (gradient 5 5) / 8 * 8.
Proof.
  split_and!; [wf_by_computation|simpl; lia|].
  intros (result & Hrun & _). by vm_compute in Hrun.
Qed.
(** ** ShuffleRgbCodec *)

Lemma rgb_index_add t c : c < 3 → rgb_index (t * 3 + c) = t * 4 + c.
Proof.
  intros Hc. unfold rgb_index.
  rewrite Nat.div_add_l by lia. rewrite Nat.div_small by done.
  rewrite (Nat.add_comm (t * 3)), Nat.Div0.mod_add, Nat.mod_small by done. lia.
Qed.

Lemma rgb_index_inj j j' : rgb_index j = rgb_index j' → j = j'.
Proof.
  unfold rgb_index. intros Heq.
  pose proof (Nat.div_mod j 3 ltac:(lia)). pose proof (Nat.div_mod j' 3 ltac:(lia)).
  pose proof (Nat.mod_upper_bound j 3 ltac:(lia)).
  pose proof (Nat.mod_upper_bound j' 3 ltac:(lia)). lia.
Qed.

Lemma rgb_index_lt j m : j < m * 3 → rgb_index j < m * 4.
Proof.
  unfold rgb_index. intros Hj.
  pose proof (Nat.div_mod j 3 ltac:(lia)).
  pose proof (Nat.mod_upper_bound j 3 ltac:(lia)). lia.
Qed.

Lemma rgb_index_not_alpha j : rgb_index j `mod` 4 ≠ 3.
Proof.
  unfold rgb_index. rewrite (Nat.add_comm (j / 3 * 4)), Nat.Div0.mod_add.
  pose proof (Nat.mod_upper_bound j 3 ltac:(lia)).
  rewrite Nat.mod_small; lia.
Qed.

Lemma rgb_index_surj idx : idx `mod` 4 ≠ 3 → ∃ j, idx = rgb_index j ∧ j = idx / 4 * 3 + idx `mod` 4.
Proof.
  intros Hidx. exists (idx / 4 * 3 + idx `mod` 4). split; [|done].
  pose proof (Nat.div_mod idx 4 ltac:(lia)).
  pose proof (Nat.mod_upper_bound idx 4 ltac:(lia)).
  rewrite rgb_index_add by lia. lia.
Qed.

Section shuffle_rgb.
Context `{!Rng}.
Context (n : nat) (seed : Z).
Implicit Types (buffer data : list Z) (seq : RandomSequence.t).

Lemma scattered_next src m buffer seq :
  m < n → scattered n seed src m (buffer, seq) →
  ∃ p seq', RandomSequence.next seq = Some (p, seq') ∧
            scattered n seed src (S m) (u8c_store buffer p (src !! rgb_index m), seq').
Proof.
  intros Hm (-> & Hlen & Hdone).
  destruct (next_produced n seed m Hm) as (p & Hp & Hpn & Hnext).
  exists p, (RandomSequence.mk n seed (S m)). split; [done|].
  split_and!; [done|by rewrite length_u8c_store|].
  intros j p' Hj Hp'. rewrite lookup_u8c_store.
  destruct (decide (j = m)) as [->|].
  - assert (p' = p) as -> by congruence. by rewrite decide_True by lia.
  - rewrite decide_False; [apply Hdone; [lia|done]|].
    intros [-> _]. by pose proof (permutation_inj n seed j m p' Hp' Hp).
Qed.

Lemma copied_in_store data0 buffer m data :
  rgb_index m < length data0 → copied_in data0 buffer m data →
  copied_in data0 buffer (S m) (u8c_store data (rgb_index m) (buffer !! m)).
Proof.
  intros Hm (Hlen & Hin & Hout). split_and!; [by rewrite length_u8c_store| |].
  - intros j Hj. rewrite lookup_u8c_store.
    destruct (decide (j = m)) as [->|].
    + by rewrite decide_True by lia.
    + rewrite decide_False; [apply Hin; lia|].
      intros [Heq%rgb_index_inj _]. lia.
  - intros idx Hidx. rewrite lookup_u8c_store, decide_False.
    + apply Hout. intros j Hj. apply Hidx. lia.
    + intros [<- _]. by apply (Hidx m); [lia|].
Qed.

Lemma gathered_store data m buffer :
  m < n → gathered n data m buffer →
  gathered n data (S m) (u8c_store buffer m (data !! rgb_index m)).
Proof.
  intros Hm [Hlen Hdone]. split; [by rewrite length_u8c_store|].
  intros j Hj. rewrite lookup_u8c_store.
  destruct (decide (j = m)) as [->|].
  - by rewrite decide_True by lia.
  - rewrite decide_False by lia. apply Hdone. lia.
Qed.

Lemma restored_next data0 buffer m data seq :
  m < n → rgb_index m < length data0 → restored n seed data0 buffer m (data, seq) →
  ∃ p seq', RandomSequence.next seq = Some (p, seq') ∧
            restored n seed data0 buffer (S m) (u8c_store data (rgb_index m) (buffer !! p), seq').
Proof.
  intros Hm Hidx (-> & Hlen & Hin & Hout).
  destruct (next_produced n seed m Hm) as (p & Hp & Hpn & Hnext).
  exists p, (RandomSequence.mk n seed (S m)). split; [done|].
  split_and!; [done|by rewrite length_u8c_store| |].
  - intros j p' Hj Hp'. rewrite lookup_u8c_store.
    destruct (decide (j = m)) as [->|].
    + assert (p' = p) as -> by congruence. by rewrite decide_True by lia.
    + rewrite decide_False; [apply Hin; [lia|done]|].
      intros [Heq%rgb_index_inj _]. lia.
  - intros idx Hidx'. rewrite lookup_u8c_store, decide_False.
    + apply Hout. intros j Hj. apply Hidx'. lia.
    + intros [<- _]. by apply (Hidx' m); [lia|].
Qed.
End shuffle_rgb.

Section shuffle_rgb_codec.
Context `{!Rng}.

Local Arguments u8c_store : simpl never.
Local Arguments rgb_index : simpl never.
Local Arguments RandomSequence.next : simpl never.

Lemma nRgbs_pixels (data : list Z) pixels :
  length data = pixels * 4 → ShuffleRgbCodec.nRgbs data = pixels * 3.
Proof. intros Hlen. unfold ShuffleRgbCodec.nRgbs. by rewrite Hlen, Nat.div_mul. Qed.

Lemma rgb_index_slots t :
  0 + t * 4 = rgb_index (t * 3) ∧ 0 + t * 4 + 1 = rgb_index (S (t * 3)) ∧
  0 + t * 4 + 2 = rgb_index (S (S (t * 3))).
Proof.
  assert (rgb_index (t * 3) = t * 4) as ->.
  { rewrite <- (Nat.add_0_r (t * 3)), rgb_index_add; lia. }
  assert (rgb_index (S (t * 3)) = t * 4 + 1) as ->.
  { replace (S (t * 3)) with (t * 3 + 1) by lia. apply rgb_index_add. lia. }
  assert (rgb_index (S (S (t * 3))) = t * 4 + 2) as ->.
  { replace (S (S (t * 3))) with (t * 3 + 2) by lia. apply rgb_index_add. lia. }
  lia.
Qed.

Lemma doEncrypt_spec cfg imgData pixels :
  length (data imgData) = pixels * 4 →
  ∃ buffer seq data1,
    ShuffleRgbCodec._doEncrypt cfg imgData = Some (with_data imgData data1) ∧
    scattered (pixels * 3) (randomSeed cfg) (data imgData) (pixels * 3) (buffer, seq) ∧
    copied_in (data imgData) buffer (pixels * 3) data1.
Proof.
  intros Hlen. unfold ShuffleRgbCodec._doEncrypt.
  rewrite (nRgbs_pixels _ pixels Hlen).
  set (data0 := data imgData) in *. set (n := pixels * 3).
  assert (n = pixels * 3) as Hn by done. clearbody n.
  match goal with |- context [for_rangeM 0 _ 4 ?b ?s] =>
    destruct (for_rangeM_ind
      (λ t, scattered n (randomSeed cfg) data0 (t * 3)) pixels 0 (length data0) 4 b s)
      as ([buffer seq] & -> & Hsc) end; [lia|lia|intros; lia| | |].
  - split_and!; [done|apply length_u8c_new|intros; lia].
  - intros t [buffer seq] Ht Hst. cbv beta iota.
    destruct (rgb_index_slots t) as (-> & -> & ->).
    destruct (scattered_next n _ data0 (t * 3) buffer seq ltac:(lia) Hst)
      as (p0 & seq0 & -> & Hst0).
    cbn [mbind option_bind]. cbv beta iota zeta.
    destruct (scattered_next n _ data0 (S (t * 3)) _ seq0 ltac:(lia) Hst0)
      as (p1 & seq1 & -> & Hst1).
    cbn [mbind option_bind]. cbv beta iota zeta.
    destruct (scattered_next n _ data0 (S (S (t * 3))) _ seq1 ltac:(lia) Hst1)
      as (p2 & seq2 & -> & Hst2).
    cbn [mbind option_bind]. cbv beta iota zeta.
    eexists. split; [done|]. by replace (S t * 3) with (S (S (S (t * 3)))) by lia.
  - cbn [mbind option_bind]. cbv beta iota zeta.
    pose (P := λ (t : nat) (st : list Z * nat),
                 st.2 = t * 3 ∧ copied_in data0 buffer (t * 3) st.1).
    match goal with |- context [for_range 0 _ 4 ?b ?s] =>
      assert (P pixels (for_range 0 (length data0) 4 b s)) as Hci end.
    { apply (for_range_ind P); [lia|lia|intros; lia| |].
      - split; [done|]. split_and!; [done|intros; lia|done].
      - intros t [d j] Ht [Hj Hd]. simpl in Hj, Hd. subst j. cbv beta iota zeta.
        destruct (rgb_index_slots t) as (-> & -> & ->).
        split; [simpl; lia|]. simpl fst.
        replace (S t * 3) with (S (S (S (t * 3)))) by lia.
        replace (t * 3 + 1) with (S (t * 3)) by lia.
        replace (t * 3 + 2) with (S (S (t * 3))) by lia.
        pose proof (rgb_index_lt (t * 3) pixels ltac:(lia)).
        pose proof (rgb_index_lt (S (t * 3)) pixels ltac:(lia)).
        pose proof (rgb_index_lt (S (S (t * 3))) pixels ltac:(lia)).
        do 3 (apply copied_in_store; [lia|]). done. }
    destruct (for_range 0 (length data0) 4 _ _) as [data1 j].
    destruct Hci as [_ Hci]. exists buffer, seq, data1. by rewrite Hn in *.
Qed.

Lemma doDecrypt_spec cfg imgData pixels :
  length (data imgData) = pixels * 4 →
  ∃ buffer seq data1,
    ShuffleRgbCodec._doDecrypt cfg imgData = Some (with_data imgData data1) ∧
    gathered (pixels * 3) (data imgData) (pixels * 3) buffer ∧
    restored (pixels * 3) (randomSeed cfg) (data imgData) buffer (pixels * 3) (data1, seq).
Proof.
  intros Hlen. unfold ShuffleRgbCodec._doDecrypt.
  rewrite (nRgbs_pixels _ pixels Hlen).
  set (data0 := data imgData) in *. set (n := pixels * 3).
  assert (n = pixels * 3) as Hn by done. clearbody n.
  pose (P := λ (t : nat) (st : list Z * nat),
               st.2 = t * 3 ∧ gathered n data0 (t * 3) st.1).
  match goal with |- context [for_range 0 _ 4 ?b ?s] =>
    assert (P pixels (for_range 0 (length data0) 4 b s)) as Hga end.
  { apply (for_range_ind P); [lia|lia|intros; lia| |].
    - split; [done|]. split; [apply length_u8c_new|intros; lia].
    - intros t [b j] Ht [Hj Hb]. simpl in Hj, Hb. subst j. cbv beta iota zeta.
      destruct (rgb_index_slots t) as (-> & -> & ->).
      split; [simpl; lia|]. simpl fst.
      replace (S t * 3) with (S (S (S (t * 3)))) by lia.
      replace (t * 3 + 1) with (S (t * 3)) by lia.
      replace (t * 3 + 2) with (S (S (t * 3))) by lia.
      do 3 (apply gathered_store; [lia|]). done. }
  destruct (for_range 0 (length data0) 4 _ _) as [buffer j].
  destruct Hga as [_ Hga]. simpl in Hga.
  match goal with |- context [for_rangeM 0 _ 4 ?b ?s] =>
    destruct (for_rangeM_ind
      (λ t, restored n (randomSeed cfg) data0 buffer (t * 3)) pixels 0 (length data0) 4 b s)
      as ([data1 seq] & -> & Hre) end; [lia|lia|intros; lia| | |].
  - split_and!; [done|done|intros; lia|done].
  - intros t [d seq] Ht Hst. cbv beta iota.
    destruct (rgb_index_slots t) as (-> & -> & ->).
    pose proof (rgb_index_lt (t * 3) pixels ltac:(lia)).
    pose proof (rgb_index_lt (S (t * 3)) pixels ltac:(lia)).
    pose proof (rgb_index_lt (S (S (t * 3))) pixels ltac:(lia)).
    destruct (restored_next n _ data0 buffer (t * 3) d seq ltac:(lia) ltac:(lia) Hst)
      as (p0 & seq0 & -> & Hst0).
    cbn [mbind option_bind]. cbv beta iota zeta.
    destruct (restored_next n _ data0 buffer (S (t * 3)) _ seq0 ltac:(lia) ltac:(lia) Hst0)
      as (p1 & seq1 & -> & Hst1).
    cbn [mbind option_bind]. cbv beta iota zeta.
    destruct (restored_next n _ data0 buffer (S (S (t * 3))) _ seq1 ltac:(lia) ltac:(lia) Hst1)
      as (p2 & seq2 & -> & Hst2).
    cbn [mbind option_bind]. cbv beta iota zeta.
    eexists. split; [done|]. by replace (S t * 3) with (S (S (S (t * 3)))) by lia.
  - cbn [mbind option_bind]. exists buffer, seq, data1. by rewrite Hn in *.
Qed.

Lemma alpha_not_rgb idx j : idx `mod` 4 = 3 → idx ≠ rgb_index j.
Proof. intros Hidx ->. by apply (rgb_index_not_alpha j). Qed.

(** C3: for every RGBA pixel buffer (whatever its alpha bytes) and every
    seed, ShuffleRgbCodec's encode succeeds and leaves the alpha bytes as
    they are, its decode with the same seed gives back the original
    buffer, R, G and B values included, and decode leaves the alpha bytes
    of the buffer it is given as they are. *)
Theorem shuffle_rgb_roundtrip cfg imgData :
  wf_ImageData imgData →
  (∃ encrypted,
     ShuffleRgbCodec._doEncrypt cfg imgData = Some encrypted ∧
     (∀ idx, idx `mod` 4 = 3 → data encrypted !! idx = data imgData !! idx) ∧
     ShuffleRgbCodec._doDecrypt cfg encrypted = Some imgData) ∧
  (∃ decrypted,
     ShuffleRgbCodec._doDecrypt cfg imgData = Some decrypted ∧
     (∀ idx, idx `mod` 4 = 3 → data decrypted !! idx = data imgData !! idx)).
Proof.
  intros [_ _ Hlen Hbytes]. set (pixels := width imgData * height imgData) in *.
  split.
  - destruct (doEncrypt_spec cfg imgData pixels Hlen)
      as (B & seq & data1 & -> & (_ & HlenB & HB) & (Hlen1 & Hin1 & Hout1)).
    eexists. split; [done|]. split.
    { intros idx Hidx. apply Hout1. intros j _. by apply alpha_not_rgb. }
    destruct (doDecrypt_spec cfg (with_data imgData data1) pixels)
      as (B' & seq' & data2 & -> & (HlenB' & HB') & (_ & Hlen2 & Hin2 & Hout2)).
    { simpl. congruence. }
    simpl in *. f_equal. destruct imgData as [w h data0]. unfold with_data. simpl in *.
    f_equal. apply list_eq. intros idx.
    destruct (decide (idx < pixels * 4)) as [Hidx|Hidx];
      [|rewrite !lookup_ge_None_2; [done|lia..]].
    destruct (decide (idx `mod` 4 = 3)) as [Ha|Ha].
    { rewrite Hout2 by (intros j _; by apply alpha_not_rgb).
      apply Hout1. intros j _. by apply alpha_not_rgb. }
    destruct (rgb_index_surj idx Ha) as (j & Hidxj & Hj).
    assert (j < pixels * 3) as Hjn.
    { pose proof (Nat.div_mod idx 4 ltac:(lia)).
      pose proof (Nat.mod_upper_bound idx 4 ltac:(lia)). lia. }
    clear Hj. subst idx.
    destruct (permutation_lookup (pixels * 3) (randomSeed cfg) j Hjn) as (p & Hp & Hpn).
    destruct (lookup_lt_is_Some_2 data0 (rgb_index j) ltac:(lia)) as [v Hv].
    assert (is_byte v) by (eapply lookup_byte; eauto).
    rewrite (Hin2 j p Hjn Hp), (HB' p Hpn), (Hin1 p Hpn), (HB j p Hjn Hp), Hv.
    by rewrite !(clamp_byte v).
  - destruct (doDecrypt_spec cfg imgData pixels Hlen)
      as (B & seq & data1 & -> & _ & (_ & Hlen1 & Hin1 & Hout1)).
    eexists. split; [done|]. intros idx Hidx. simpl.
    apply Hout1. intros j _. by apply alpha_not_rgb.
Qed.
End shuffle_rgb_codec.


Lemma shuffle_rgb_roundtrip_witness :
  ∃ encrypted,
    @ShuffleRgbCodec._doEncrypt lcg (mkConfig "ShuffleRgbCodec" 7) (gradient 3 2)
      = Some encrypted ∧
    @ShuffleRgbCodec._doDecrypt lcg (mkConfig "ShuffleRgbCodec" 7) encrypted
      = Some (gradient 3 2).
Proof.
  destruct (@shuffle_rgb_roundtrip lcg (mkConfig "ShuffleRgbCodec" 7) (gradient 3 2))
    as [(encrypted & Henc & _ & Hdec) _]; [wf_by_computation|].
  exists encrypted. split; [exact Henc|exact Hdec].
Defined.
(** ** MosaicCodec: the pixel step *)

Lemma sumZ_ext f g n : (∀ i, i < n → f i = g i) → sumZ f n = sumZ g n.
Proof.
  induction n as [|n IH]; intros Hfg; simpl; [done|].
  rewrite IH, Hfg by (intros; try apply Hfg; lia). done.
Qed.

Lemma sumZ_const v n : sumZ (λ _, v) n = (Z.of_nat n * v)%Z.
Proof. induction n as [|n IH]; simpl; [lia|]. rewrite IH. lia. Qed.

Lemma sumZ_bounds f n lo hi :
  (∀ i, i < n → (lo ≤ f i ≤ hi)%Z) →
  (Z.of_nat n * lo ≤ sumZ f n ≤ Z.of_nat n * hi)%Z.
Proof.
  induction n as [|n IH]; intros Hf; simpl; [lia|].
  specialize (IH ltac:(intros; apply Hf; lia)). specialize (Hf n ltac:(lia)). lia.
Qed.

Lemma pixel_index_block W x y xx yy c :
  pixel_index W (x + xx) (y + yy) c = (y * W + x) * 4 + c + yy * (W * 4) + xx * 4.
Proof. unfold pixel_index. lia. Qed.

Lemma pixel_index_inj W px py c px' py' c' :
  px < W → px' < W → c < 4 → c' < 4 →
  pixel_index W px py c = pixel_index W px' py' c' →
  px = px' ∧ py = py' ∧ c = c'.
Proof.
  unfold pixel_index. intros Hpx Hpx' Hc Hc' Heq.
  destruct (radix_inj 4 (py * W + px) c (py' * W + px') c') as [H1 ->]; [done..|].
  destruct (radix_inj W py px py' px') as [-> ->]; done.
Qed.

Lemma pixel_index_lt W H px py c :
  px < W → py < H → c < 4 → pixel_index W px py c < W * H * 4.
Proof.
  unfold pixel_index. intros Hpx Hpy Hc.
  assert (py * W + px < H * W); [|lia].
  assert (py + 1 ≤ H) as Hr by lia.
  apply (Nat.mul_le_mono_r _ _ W) in Hr. lia.
Qed.

Lemma pixel_index_surj W H j :
  j < W * H * 4 →
  ∃ px py c, px < W ∧ py < H ∧ c < 4 ∧ j = pixel_index W px py c.
Proof.
  intros Hj. assert (0 < W) by (destruct W; lia).
  pose proof (Nat.div_mod j 4 ltac:(lia)).
  pose proof (Nat.mod_upper_bound j 4 ltac:(lia)).
  pose proof (Nat.div_mod (j / 4) W ltac:(lia)).
  pose proof (Nat.mod_upper_bound (j / 4) W ltac:(lia)).
  exists ((j / 4) `mod` W), (j / 4 / W), (j `mod` 4).
  split_and!; [done| |done|unfold pixel_index; lia].
  apply Nat.Div0.div_lt_upper_bound. apply Nat.Div0.div_lt_upper_bound. lia.
Qed.

(** The summing loops of [_mosaic]. *)
Lemma sum_row (d : list Z) iStart bw t0 :
  (∀ xx, xx < bw → iStart + xx * 4 < length d) →
  for_range 0 bw 1 (λ x total, MosaicCodec.js_add total (d !! (iStart + x * 4))) (Some t0)
  = Some (t0 + sumZ (λ xx, byte_at d (iStart + xx * 4)) bw)%Z.
Proof.
  intros Hin.
  apply (for_count_ind (λ t total,
    total = Some (t0 + sumZ (λ xx, byte_at d (iStart + xx * 4)) t)%Z) bw).
  - simpl. f_equal. lia.
  - intros t total Ht ->. simpl.
    destruct (lookup_lt_is_Some_2 d (iStart + t * 4) (Hin t Ht)) as [v Hv].
    unfold byte_at. rewrite Hv. simpl. f_equal. lia.
Qed.

Lemma sum_block (d : list Z) iStart stride bw bh :
  (∀ yy xx, yy < bh → xx < bw → iStart + yy * stride + xx * 4 < length d) →
  for_range 0 bh 1 (λ _ '(total, iStart),
    (for_range 0 bw 1 (λ x total, MosaicCodec.js_add total (d !! (iStart + x * 4))) total,
     iStart + stride)) (Some 0%Z, iStart)
  = (Some (sumZ (λ yy, sumZ (λ xx, byte_at d (iStart + yy * stride + xx * 4)) bw) bh),
     iStart + bh * stride).
Proof.
  intros Hin.
  apply (for_count_ind (λ t st,
    st = (Some (sumZ (λ yy, sumZ (λ xx, byte_at d (iStart + yy * stride + xx * 4)) bw) t),
          iStart + t * stride)) bh).
  - simpl. by rewrite Nat.add_0_r.
  - intros t st Ht ->. cbv beta iota.
    rewrite sum_row by (intros xx Hxx; by apply Hin).
    simpl sumZ. f_equal. lia.
Qed.

(** The storing loops of [_mosaic]. *)
Lemma fill_row (d : list Z) iStart bw average :
  let d' := for_range 0 bw 1 (λ x data, u8c_store data (iStart + x * 4) average) d in
  length d' = length d ∧
  (∀ xx, xx < bw → iStart + xx * 4 < length d →
     d' !! (iStart + xx * 4) = Some (clamp average)) ∧
  (∀ j, (∀ xx, xx < bw → j ≠ iStart + xx * 4) → d' !! j = d !! j).
Proof.
  cbv zeta.
  apply (for_count_ind (λ t d', length d' = length d ∧
    (∀ xx, xx < t → iStart + xx * 4 < length d →
       d' !! (iStart + xx * 4) = Some (clamp average)) ∧
    (∀ j, (∀ xx, xx < t → j ≠ iStart + xx * 4) → d' !! j = d !! j)) bw).
  - split_and!; [done|intros; lia|done].
  - intros t d' Ht (Hlen & Hin & Hout).
    split_and!; [by rewrite length_u8c_store| |].
    + intros xx Hxx Hb. rewrite lookup_u8c_store.
      destruct (decide (xx = t)) as [->|].
      * by rewrite decide_True by lia.
      * rewrite decide_False by lia. apply Hin; [lia|done].
    + intros j Hj. rewrite lookup_u8c_store, decide_False.
      * apply Hout. intros xx Hxx. apply Hj. lia.
      * intros [<- _]. by apply (Hj t); [lia|].
Qed.

Lemma fill_block (d : list Z) iStart stride bw bh average :
  let st := for_range 0 bh 1 (λ _ '(data, iStart),
      (for_range 0 bw 1 (λ x data, u8c_store data (iStart + x * 4) average) data,
       iStart + stride)) (d, iStart) in
  length st.1 = length d ∧
  (∀ yy xx, yy < bh → xx < bw → iStart + yy * stride + xx * 4 < length d →
     st.1 !! (iStart + yy * stride + xx * 4) = Some (clamp average)) ∧
  (∀ j, (∀ yy xx, yy < bh → xx < bw → j ≠ iStart + yy * stride + xx * 4) →
     st.1 !! j = d !! j).
Proof.
  cbv zeta.
  apply (for_count_ind (λ t (st : list Z * nat),
    st.2 = iStart + t * stride ∧ length st.1 = length d ∧
    (∀ yy xx, yy < t → xx < bw → iStart + yy * stride + xx * 4 < length d →
       st.1 !! (iStart + yy * stride + xx * 4) = Some (clamp average)) ∧
    (∀ j, (∀ yy xx, yy < t → xx < bw → j ≠ iStart + yy * stride + xx * 4) →
       st.1 !! j = d !! j)) bh).
  - simpl. split_and!; [lia|done|intros; lia|done].
  - intros t [d' i] Ht (Hi & Hlen & Hin & Hout). simpl in Hi, Hlen, Hin, Hout. subst i.
    cbv beta iota.
    destruct (fill_row d' (iStart + t * stride) bw average) as (Hlen' & Hin' & Hout').
    cbv zeta in Hlen', Hin', Hout'. simpl.
    split_and!; [lia|congruence| |].
    + intros yy xx Hyy Hxx Hb.
      destruct (decide (yy = t)) as [->|].
      * apply Hin'; [done|lia].
      * destruct (decide (iStart + yy * stride + xx * 4
                          ∈ (λ xx', iStart + t * stride + xx' * 4) <$> seq 0 bw))
          as [(xx' & Heq & Hxx'%elem_of_seq)%list_elem_of_fmap|Hne].
        -- rewrite Heq. apply Hin'; [lia|lia].
        -- rewrite Hout'; [apply Hin; [lia|done..]|].
           intros xx' Hxx' Heq. apply Hne. apply list_elem_of_fmap.
           exists xx'. split; [done|]. apply elem_of_seq. lia.
    + intros j Hj. rewrite Hout'; [apply Hout|].
      * intros yy xx Hyy Hxx. apply Hj; [lia|done].
      * intros xx Hxx. apply Hj; [lia|done].
Qed.

Lemma channel_total_ext d d' W x y bw bh c :
  (∀ yy xx, yy < bh → xx < bw →
     d !! pixel_index W (x + xx) (y + yy) c = d' !! pixel_index W (x + xx) (y + yy) c) →
  channel_total d W x y bw bh c = channel_total d' W x y bw bh c.
Proof.
  intros Heq. unfold channel_total. apply sumZ_ext. intros yy Hyy.
  apply sumZ_ext. intros xx Hxx. unfold byte_at. by rewrite Heq.
Qed.

Lemma mosaic_spec imgData x y bw bh :
  (∀ c yy xx, c < 4 → yy < bh → xx < bw →
     pixel_index (width imgData) (x + xx) (y + yy) c < length (data imgData)) →
  width (MosaicCodec._mosaic imgData x y bw bh) = width imgData ∧
  height (MosaicCodec._mosaic imgData x y bw bh) = height imgData ∧
  length (data (MosaicCodec._mosaic imgData x y bw bh)) = length (data imgData) ∧
  (∀ c yy xx, c < 4 → yy < bh → xx < bw →
     data (MosaicCodec._mosaic imgData x y bw bh)
       !! pixel_index (width imgData) (x + xx) (y + yy) c
     = Some (block_average (data imgData) (width imgData) x y bw bh c)) ∧
  (∀ j, (∀ c yy xx, c < 4 → yy < bh → xx < bw →
           j ≠ pixel_index (width imgData) (x + xx) (y + yy) c) →
     data (MosaicCodec._mosaic imgData x y bw bh) !! j = data imgData !! j).
Proof.
  intros Hrange. unfold MosaicCodec._mosaic, with_data. cbn [width height data].
  split; [done|]. split; [done|].
  set (W := width imgData) in *. set (d0 := data imgData) in *.
  apply (for_count_ind (λ t d,
    length d = length d0 ∧
    (∀ c yy xx, c < t → yy < bh → xx < bw →
       d !! pixel_index W (x + xx) (y + yy) c = Some (block_average d0 W x y bw bh c)) ∧
    (∀ j, (∀ c yy xx, c < t → yy < bh → xx < bw →
             j ≠ pixel_index W (x + xx) (y + yy) c) → d !! j = d0 !! j)) 4).
  - split_and!; [done|intros; lia|done].
  - intros c d Hc (Hlen & Hin & Hout). cbv beta zeta.
    rewrite (sum_block d ((y * W + x) * 4 + c) (W * 4) bw bh); last first.
    { intros yy xx Hyy Hxx. rewrite <- pixel_index_block, Hlen. by apply Hrange. }
    cbv iota beta.
    assert (sumZ (λ yy, sumZ (λ xx,
              byte_at d ((y * W + x) * 4 + c + yy * (W * 4) + xx * 4)) bw) bh
            = channel_total d0 W x y bw bh c) as ->.
    { transitivity (channel_total d W x y bw bh c).
      - unfold channel_total. apply sumZ_ext. intros yy Hyy. apply sumZ_ext.
        intros xx Hxx. by rewrite pixel_index_block.
      - apply channel_total_ext. intros yy xx Hyy Hxx. apply Hout.
        intros c' yy' xx' Hc' _ _. unfold pixel_index. lia. }
    destruct (fill_block d ((y * W + x) * 4 + c) (W * 4) bw bh
                (MosaicCodec.round_average (Some (channel_total d0 W x y bw bh c)) bw bh))
      as (Hlen' & Hin' & Hout').
    cbv zeta in Hlen', Hin', Hout'.
    destruct (for_range 0 bh 1 _ _) as [d' i']. simpl in Hlen', Hin', Hout'.
    split_and!; [congruence| |].
    + intros c' yy xx Hc' Hyy Hxx.
      destruct (decide (c' = c)) as [->|].
      * rewrite pixel_index_block. apply Hin'; [done..|].
        rewrite <- pixel_index_block, Hlen. apply Hrange; [lia|done..].
      * rewrite Hout'; [apply Hin; [lia|done..]|].
        intros yy' xx' _ _. unfold pixel_index. lia.
    + intros j Hj. rewrite Hout'; [apply Hout|].
      * intros c' yy xx Hc' Hyy Hxx. apply Hj; [lia|done..].
      * intros yy xx Hyy Hxx. rewrite <- pixel_index_block. apply Hj; [lia|done..].
Qed.

Lemma block_count size :
  size ≤ 0 + (size + 31) / 32 * 32 ∧
  ∀ t, t < (size + 31) / 32 → 0 + t * 32 < size.
Proof.
  pose proof (Nat.div_mod (size + 31) 32 ltac:(lia)).
  pose proof (Nat.mod_upper_bound (size + 31) 32 ltac:(lia)).
  split; [lia|]. intros t Ht. lia.
Qed.

Lemma block_origin_offset t xx : xx < 32 → block_origin (t * 32 + xx) = t * 32.
Proof.
  intros Hxx. unfold block_origin.
  rewrite Nat.div_add_l by lia. rewrite Nat.div_small by done. lia.
Qed.

Lemma block_origin_spec p :
  ∃ t xx, xx < 32 ∧ p = t * 32 + xx ∧ block_origin p = t * 32.
Proof.
  exists (p / 32), (p `mod` 32).
  pose proof (Nat.div_mod p 32 ltac:(lia)).
  pose proof (Nat.mod_upper_bound p 32 ltac:(lia)).
  split_and!; [done|lia|done].
Qed.

Lemma mosaicked_block d0 W H tx ty imgData :
  length d0 = W * H * 4 → tx * 32 < W → ty * 32 < H →
  mosaicked d0 W H (λ px py, py < ty * 32 ∨ (py < ty * 32 + 32 ∧ px < tx * 32)) imgData →
  mosaicked d0 W H (λ px py, py < ty * 32 ∨ (py < ty * 32 + 32 ∧ px < S tx * 32))
    (MosaicCodec._mosaic imgData (tx * 32) (ty * 32)
       (32 `min` (W - tx * 32)) (32 `min` (H - ty * 32))).
Proof.
  intros Hlen0 Htx Hty (Hw & Hh & Hlen & Hin & Hout).
  remember (tx * 32) as x eqn:Hx. remember (ty * 32) as y eqn:Hy.
  remember (32 `min` (W - x)) as bw eqn:Hbw. remember (32 `min` (H - y)) as bh eqn:Hbh.
  destruct (mosaic_spec imgData x y bw bh) as (Hw' & Hh' & Hlen' & Hin' & Hout').
  { intros c yy xx Hc Hyy Hxx. rewrite Hw, Hlen, Hlen0.
    apply pixel_index_lt; [lia|lia|done]. }
  rewrite Hw in Hin', Hout'.
  assert (∀ px py, px < W → py < H →
    (∃ xx yy, xx < bw ∧ yy < bh ∧ px = x + xx ∧ py = y + yy)
    ∨ (∀ c c' yy xx, c < 4 → c' < 4 → yy < bh → xx < bw →
         pixel_index W px py c ≠ pixel_index W (x + xx) (y + yy) c')) as Hcase.
  { intros px py Hpx Hpy.
    destruct (decide (x ≤ px < x + bw ∧ y ≤ py < y + bh)) as [Hb|Hb].
    - left. exists (px - x), (py - y). lia.
    - right. intros c c' yy xx Hc Hc' Hyy Hxx Heq.
      apply pixel_index_inj in Heq; [|lia..]. lia. }
  assert (∀ c, c < 4 →
    channel_total (data imgData) W x y bw bh c = channel_total d0 W x y bw bh c)
    as Htotal.
  { intros c Hc. apply channel_total_ext. intros yy xx Hyy Hxx.
    apply Hout; [lia|lia|done|lia]. }
  split_and!; [congruence|congruence|congruence| |].
  - intros px py c Hpx Hpy Hc Hproc.
    destruct (Hcase px py Hpx Hpy) as [(xx & yy & Hxx & Hyy & -> & ->)|Hother].
    + rewrite Hin' by done. f_equal. unfold mosaic_value, block_average.
      rewrite Htotal by done. unfold block_extent.
      rewrite Hx, Hy, !block_origin_offset by lia. by rewrite <- Hx, <- Hy, <- Hbw, <- Hbh.
    + rewrite Hout' by (intros; by apply Hother).
      apply Hin; [done..|]. destruct Hproc as [?|[? ?]]; [by left|].
      destruct (decide (py < y)); [by left|].
      destruct (decide (px < x)); [right; lia|]. exfalso.
      apply (Hother c c (py - y) (px - x)); [done|done|lia|lia|]. f_equal; lia.
  - intros px py c Hpx Hpy Hc Hproc.
    destruct (Hcase px py Hpx Hpy) as [(xx & yy & Hxx & Hyy & -> & ->)|Hother].
    + exfalso. apply Hproc. right. lia.
    + rewrite Hout' by (intros; by apply Hother).
      apply Hout; [done..|]. intros [?|[? ?]]; apply Hproc; [by left|right; lia].
Qed.

Lemma mosaicked_iff d0 W H (P Q : nat → nat → Prop) imgData :
  (∀ px py, px < W → py < H → P px py ↔ Q px py) →
  mosaicked d0 W H P imgData → mosaicked d0 W H Q imgData.
Proof.
  intros HPQ (Hw & Hh & Hlen & Hin & Hout). split_and!; [done..| |].
  - intros px py c Hpx Hpy Hc HQ. apply Hin; [done..|]. by apply HPQ.
  - intros px py c Hpx Hpy Hc HQ. apply Hout; [done..|]. intros HP. by apply HQ, HPQ.
Qed.

Lemma doEncrypt_mosaicked imgData :
  length (data imgData) = width imgData * height imgData * 4 →
  mosaicked (data imgData) (width imgData) (height imgData) (λ _ _, True)
    (MosaicCodec._doEncrypt imgData).
Proof.
  intros Hlen. unfold MosaicCodec._doEncrypt, MosaicCodec.BLOCK_SIZE.
  set (W := width imgData) in *. set (H := height imgData) in *.
  set (d0 := data imgData) in *.
  destruct (block_count H) as [HstopH HltH]. destruct (block_count W) as [HstopW HltW].
  eapply mosaicked_iff; last first.
  - apply (for_range_ind (λ ty, mosaicked d0 W H (λ _ py, py < ty * 32))
             ((H + 31) / 32) 0 H 32); [lia|done|done| |].
    + split_and!; [done|done|done|intros; lia|done].
    + intros ty img' Hty (Hw' & Hh' & Himg'). cbv zeta. rewrite Hw', Hh'.
      eapply mosaicked_iff; last first.
      * apply (for_range_ind (λ tx, mosaicked d0 W H
                 (λ px py, py < ty * 32 ∨ (py < ty * 32 + 32 ∧ px < tx * 32)))
                 ((W + 31) / 32) 0 W 32); [lia|done|done| |].
        -- eapply mosaicked_iff; [|split_and!; [exact Hw'|exact Hh'|apply Himg'..]]. intros px py _ _. cbv beta. lia.
        -- intros tx img'' Htx Himg''. cbv zeta.
           destruct Himg'' as (Hw'' & Himg''). rewrite Hw''.
           apply mosaicked_block; [done|apply (HltW tx Htx)|apply (HltH ty Hty)|].
           by split.
      * intros px py Hpx Hpy. cbv beta. lia.
  - intros px py Hpx Hpy. cbv beta. lia.
Qed.

Lemma byte_at_bounds d i : Forall is_byte d → (0 ≤ byte_at d i ≤ 255)%Z.
Proof.
  intros Hd. unfold byte_at. destruct (d !! i) as [v|] eqn:Hv; simpl; [|lia].
  by apply (lookup_byte d i v).
Qed.

Lemma channel_total_bounds d W x y bw bh c :
  Forall is_byte d →
  (0 ≤ channel_total d W x y bw bh c ≤ 255 * Z.of_nat (bw * bh))%Z.
Proof.
  intros Hd. unfold channel_total.
  pose proof (sumZ_bounds (λ yy, sumZ (λ xx,
    byte_at d (pixel_index W (x + xx) (y + yy) c)) bw) bh 0 (Z.of_nat bw * 255)) as Hb.
  destruct Hb as [Hlo Hhi]; [|lia].
  intros yy _.
  pose proof (sumZ_bounds (λ xx, byte_at d (pixel_index W (x + xx) (y + yy) c)) bw 0 255)
    as Hrow.
  destruct Hrow; [|lia]. intros xx _. by apply byte_at_bounds.
Qed.

Lemma round_average_nearest total bw bh :
  0 < bw * bh → (0 ≤ total ≤ 255 * Z.of_nat (bw * bh))%Z →
  ∃ m, MosaicCodec.round_average (Some total) bw bh = Some m ∧
       nearest_integer total (Z.of_nat (bw * bh)) m ∧ is_byte m.
Proof.
  intros Hcount Htotal. unfold MosaicCodec.round_average. cbn [mbind option_bind].
  rewrite decide_False by lia. eexists. split; [done|].
  set (N := Z.of_nat (bw * bh)) in *. assert (0 < N)%Z by lia.
  pose proof (Z.mul_div_le (2 * total + N) (2 * N) ltac:(lia)).
  pose proof (Z.mul_succ_div_gt (2 * total + N) (2 * N) ltac:(lia)).
  set (m := ((2 * total + N) / (2 * N))%Z) in *.
  unfold nearest_integer, is_byte. split; [lia|]. nia.
Qed.

Lemma round_average_constant v bw bh :
  0 < bw * bh →
  MosaicCodec.round_average (Some (Z.of_nat bh * (Z.of_nat bw * v))%Z) bw bh = Some v.
Proof.
  intros Hcount. unfold MosaicCodec.round_average. cbn [mbind option_bind].
  rewrite decide_False by lia. f_equal.
  set (N := Z.of_nat (bw * bh)). assert (0 < N)%Z by lia.
  replace (2 * (Z.of_nat bh * (Z.of_nat bw * v)) + N)%Z with (v * (2 * N) + N)%Z by lia.
  rewrite Z.div_add_l by lia. rewrite Z.div_small by lia. lia.
Qed.

Lemma block_extent_spec size p :
  p < size →
  0 < block_extent size p ≤ 32 ∧
  block_origin p ≤ p < block_origin p + block_extent size p ∧
  block_origin p + block_extent size p ≤ size.
Proof.
  intros Hp. destruct (block_origin_spec p) as (t & xx & Hxx & -> & Ho).
  unfold block_extent. rewrite Ho. lia.
Qed.

(** C5: on a well-formed RGBA buffer the pixel step of MosaicCodec keeps
    the dimensions; every pixel lies in the block of at most 32x32 pixels
    that starts at the multiples of 32 below its coordinates and is clipped
    to the image, and in each of the 4 channels the pixel gets the mean of
    that channel over its block, rounded to the nearest integer. *)
Theorem mosaic_block_average imgData :
  wf_ImageData imgData →
  width (MosaicCodec._doEncrypt imgData) = width imgData ∧
  height (MosaicCodec._doEncrypt imgData) = height imgData ∧
  length (data (MosaicCodec._doEncrypt imgData)) = length (data imgData) ∧
  ∀ px py c, px < width imgData → py < height imgData → c < 4 →
    let x := block_origin px in
    let y := block_origin py in
    let blockWidth := block_extent (width imgData) px in
    let blockHeight := block_extent (height imgData) py in
    (0 < blockWidth ≤ 32 ∧ x ≤ px < x + blockWidth ∧ x + blockWidth ≤ width imgData) ∧
    (0 < blockHeight ≤ 32 ∧ y ≤ py < y + blockHeight ∧ y + blockHeight ≤ height imgData) ∧
    ∃ m, data (MosaicCodec._doEncrypt imgData) !! pixel_index (width imgData) px py c
           = Some m ∧
         nearest_integer
           (channel_total (data imgData) (width imgData) x y blockWidth blockHeight c)
           (Z.of_nat (blockWidth * blockHeight)) m.
Proof.
  intros [_ _ Hlen Hbytes].
  destruct (doEncrypt_mosaicked imgData Hlen) as (Hw & Hh & Hlen' & Hin & _).
  split_and!; [done..|]. intros px py c Hpx Hpy Hc. cbv zeta.
  pose proof (block_extent_spec _ _ Hpx) as HX.
  pose proof (block_extent_spec _ _ Hpy) as HY.
  split; [done|]. split; [done|].
  rewrite (Hin px py c) by done. unfold mosaic_value, block_average.
  destruct (round_average_nearest
    (channel_total (data imgData) (width imgData) (block_origin px) (block_origin py)
       (block_extent (width imgData) px) (block_extent (height imgData) py) c)
    (block_extent (width imgData) px) (block_extent (height imgData) py))
    as (m & -> & Hm & Hb); [nia|by apply channel_total_bounds|].
  exists m. by rewrite clamp_byte.
Qed.

(** C10: on a well-formed RGBA buffer, the pixel step of MosaicCodec
    applied twice gives the same image as applied once. *)
Theorem mosaic_idempotent imgData :
  wf_ImageData imgData →
  MosaicCodec._doEncrypt (MosaicCodec._doEncrypt imgData)
  = MosaicCodec._doEncrypt imgData.
Proof.
  intros [_ _ Hlen _].
  destruct (doEncrypt_mosaicked imgData Hlen) as (Hw & Hh & Hlen1 & Hin1 & _).
  destruct (doEncrypt_mosaicked (MosaicCodec._doEncrypt imgData))
    as (Hw2 & Hh2 & Hlen2 & Hin2 & _); [by rewrite Hw, Hh, Hlen1|].
  rewrite Hw, Hh in *.
  destruct (MosaicCodec._doEncrypt (MosaicCodec._doEncrypt imgData)) as [w2 h2 d2].
  destruct (MosaicCodec._doEncrypt imgData) as [w1 h1 d1]. simpl in *. subst.
  f_equal. apply list_eq. intros j.
  destruct (decide (j < width imgData * height imgData * 4)) as [Hj|Hj];
    [|rewrite !lookup_ge_None_2; [done|lia..]].
  destruct (pixel_index_surj _ _ j Hj) as (px & py & c & Hpx & Hpy & Hc & ->).
  rewrite (Hin2 px py c), (Hin1 px py c) by done. f_equal.
  unfold mosaic_value at 1. unfold block_average.
  destruct (block_extent_spec _ _ Hpx) as (HbwX & HinX & HendX).
  destruct (block_extent_spec _ _ Hpy) as (HbwY & HinY & HendY).
  destruct (block_origin_spec px) as (tx & xx & Hxx & Hpxeq & Hox).
  destruct (block_origin_spec py) as (ty & yy & Hyy & Hpyeq & Hoy).
  set (bw := block_extent (width imgData) px) in *.
  set (bh := block_extent (height imgData) py) in *.
  assert (channel_total d1 (width imgData) (block_origin px) (block_origin py) bw bh c
          = (Z.of_nat bh * (Z.of_nat bw * mosaic_value (data imgData) (width imgData)
                                           (height imgData) px py c))%Z) as ->.
  { unfold channel_total. rewrite <- sumZ_const. apply sumZ_ext. intros yy' Hyy'.
    rewrite <- sumZ_const. apply sumZ_ext. intros xx' Hxx'.
    unfold byte_at. rewrite Hin1 by lia. simpl.
    unfold mosaic_value, block_extent.
    rewrite Hox, Hoy, !block_origin_offset by lia. by rewrite <- Hox, <- Hoy. }
  rewrite round_average_constant by nia.
  apply clamp_byte. unfold mosaic_value, block_average. apply clamp_is_byte.
Qed.


(** The example of C5: the 2x2 block whose R values are 10, 20, 30 and 41
    gets R = 25. *)
Lemma mosaic_block_average_witness :
  data (MosaicCodec._doEncrypt mosaic_sample) !! pixel_index 2 1 1 0 = Some 25%Z.
Proof.
  destruct (mosaic_block_average mosaic_sample) as (_ & _ & _ & Hpx);
    [wf_by_computation|].
  destruct (Hpx 1 1 0) as (_ & _ & m & Hm & Hnear); [simpl; lia..|].
  change (width mosaic_sample) with 2 in Hm. rewrite Hm. f_equal.
  unfold nearest_integer in Hnear.
  change (channel_total _ _ _ _ _ _ _) with 101%Z in Hnear.
  change (Z.of_nat _) with 4%Z in Hnear. lia.
Defined.

Example mosaic_sample_result :
  data (MosaicCodec._doEncrypt mosaic_sample)
  = [25; 0; 0; 255; 25; 0; 0; 255; 25; 0; 0; 255; 25; 0; 0; 255]%Z.
Proof. reflexivity. Qed.

Lemma mosaic_idempotent_witness :
  MosaicCodec._doEncrypt (MosaicCodec._doEncrypt mosaic_sample)
  = MosaicCodec._doEncrypt mosaic_sample.
Proof. apply (mosaic_idempotent mosaic_sample). wf_by_computation. Defined.

(** * Further properties *)

(** ** Further properties of the registry and of ShuffleBlockCodec *)

(** X1: [createCodec] returns an instance of the class registered under
    each of the four codec names, and an instance of ShuffleBlockCodec for
    every selector that is none of the four names and no property of
    [Object.prototype]. *)
Theorem createCodec_registry seed :
  createCodec (mkConfig "InvertCodec" seed) = Some (codec_instance class_InvertCodec) ∧
  createCodec (mkConfig "ShuffleRgbCodec" seed) = Some (codec_instance class_ShuffleRgbCodec) ∧
  createCodec (mkConfig "ShuffleBlockCodec" seed)
    = Some (codec_instance class_ShuffleBlockCodec) ∧
  createCodec (mkConfig "MosaicCodec" seed) = Some (codec_instance class_MosaicCodec) ∧
  ∀ name,
    name ∉ ["InvertCodec"; "ShuffleRgbCodec"; "ShuffleBlockCodec"; "MosaicCodec"]%string →
    Object_prototype !! name = None →
    createCodec (mkConfig name seed) = Some (codec_instance class_ShuffleBlockCodec).
Proof.
  split_and!; [done..|]. intros name Hname Hproto. by apply createCodec_default.
Qed.

Lemma createCodec_registry_witness :
  createCodec (mkConfig "RotateCodec" 0) = Some (codec_instance class_ShuffleBlockCodec).
Proof.
  refine (proj2 (proj2 (proj2 (proj2 (createCodec_registry 0%Z)))) "RotateCodec"%string _ _).
  - rewrite !not_elem_of_cons. split_and!; try done. apply not_elem_of_nil.
  - reflexivity.
Defined.

Section more_shuffle_block.
Context `{!Rng}.

(** X2: on an image less than 8 pixels wide or high, encode and decode of
    ShuffleBlockCodec both throw: the cropped image would have no pixel,
    and the canvas refuses to create it. *)
Theorem shuffle_block_too_small cfg imgData :
  width imgData < 8 ∨ height imgData < 8 →
  ShuffleBlockCodec._doEncrypt cfg imgData = None ∧
  ShuffleBlockCodec._doDecrypt cfg imgData = None.
Proof.
  intros Hsmall.
  assert (createImageData (width imgData / 8 * 8) (height imgData / 8 * 8) = None) as Hnone.
  { unfold createImageData. apply decide_True.
    destruct Hsmall; [left|right]; by rewrite Nat.div_small. }
  unfold ShuffleBlockCodec._doEncrypt, ShuffleBlockCodec._doDecrypt,
    ShuffleBlockCodec._doCommon. by rewrite Hnone.
Qed.

Lemma pixel_index_block_byte W px py c :
  c < 4 →
  pixel_index W px py c
  = block_byte W (px / 8) (py / 8) (py `mod` 8) (px `mod` 8 * 4 + c).
Proof.
  intros Hc. unfold pixel_index, block_byte.
  pose proof (Nat.div_mod px 8 ltac:(lia)) as Hpx.
  pose proof (Nat.div_mod py 8 ltac:(lia)) as Hpy.
  rewrite Hpx at 1. rewrite Hpy at 1. lia.
Qed.

Lemma block_of_pixel bw bh px py :
  px < bw * 8 → py < bh * 8 →
  px / 8 < bw ∧ py / 8 < bh ∧ py `mod` 8 < 8 ∧ px `mod` 8 < 8.
Proof.
  intros Hpx Hpy. split_and!.
  - apply Nat.Div0.div_lt_upper_bound. lia.
  - apply Nat.Div0.div_lt_upper_bound. lia.
  - apply Nat.mod_upper_bound. lia.
  - apply Nat.mod_upper_bound. lia.
Qed.

(** The step at which the sequence yields the block number [q]. *)
Lemma permutation_preimage n seed q :
  q < n → ∃ k, k < n ∧ RandomSequence.permutation n seed !! k = Some q.
Proof.
  intros Hq. apply (elem_of_permutation n seed) in Hq.
  apply list_elem_of_lookup_1 in Hq as [k Hk]. exists k. split; [|done].
  apply lookup_lt_Some in Hk. by rewrite length_permutation in Hk.
Qed.

(** X3: for every well-formed buffer at least 8 pixels wide and high,
    decode of encode of ShuffleBlockCodec is the original cropped to
    floor(width/8)*8 by floor(height/8)*8: it has those dimensions and
    every pixel of it is the pixel of the original at the same column and
    row. *)
Theorem shuffle_block_decode_encode_crops cfg imgData :
  wf_ImageData imgData → 8 ≤ width imgData → 8 ≤ height imgData →
  ∃ encrypted decrypted,
    ShuffleBlockCodec._doEncrypt cfg imgData = Some encrypted ∧
    ShuffleBlockCodec._doDecrypt cfg encrypted = Some decrypted ∧
    width decrypted = width imgData / 8 * 8 ∧
    height decrypted = height imgData / 8 * 8 ∧
    length (data decrypted) = width decrypted * height decrypted * 4 ∧
    ∀ px py c, px < width decrypted → py < height decrypted → c < 4 →
      data decrypted !! pixel_index (width decrypted) px py c
      = data imgData !! pixel_index (width imgData) px py c.
Proof.
  intros [_ _ Hlen Hbytes] Hw Hh.
  destruct (doCommon_spec true cfg imgData Hw Hh)
    as (enc & seq & Henc & _ & HwE & HhE & HlenE & HE).
  set (bw := width imgData / 8) in *. set (bh := height imgData / 8) in *.
  assert (0 < bw) by (apply Nat.div_str_pos; lia).
  assert (0 < bh) by (apply Nat.div_str_pos; lia).
  assert (bw * 8 ≤ width imgData) as HbwW.
  { subst bw. pose proof (Nat.div_mod (width imgData) 8 ltac:(lia)). lia. }
  assert (bh * 8 ≤ height imgData) as HbhH.
  { subst bh. pose proof (Nat.div_mod (height imgData) 8 ltac:(lia)). lia. }
  assert (width enc / 8 = bw) as HbwE by (rewrite HwE; apply Nat.div_mul; lia).
  assert (height enc / 8 = bh) as HbhE by (rewrite HhE; apply Nat.div_mul; lia).
  destruct (doCommon_spec false cfg enc ltac:(lia) ltac:(lia))
    as (dec & seq' & Hdec & _ & HwD & HhD & HlenD & HD).
  rewrite HbwE, HbhE in *. clearbody bw bh.
  exists enc, dec. split_and!; [exact Henc|exact Hdec|done|done|by rewrite HwD, HhD|].
  rewrite HwD, HhD. intros px py c Hpx Hpy Hc.
  destruct (block_of_pixel bw bh px py Hpx Hpy) as (Hbx & Hby & Hy & Hxx).
  rewrite !pixel_index_block_byte by done.
  set (bx := px / 8) in *. set (by_ := py / 8) in *.
  set (y := py `mod` 8) in *. set (i := px `mod` 8 * 4 + c).
  assert (i < 32) as Hi by (subst i; lia).
  destruct (block_number bw bx by_ Hbx) as [HkX HkY].
  assert (by_ * bw + bx < bw * bh) as Hk by nia.
  destruct (permutation_lookup (bw * bh) (randomSeed cfg) _ Hk) as (p & Hp & Hpn).
  specialize (HD _ p y i Hk Hp Hy Hi). specialize (HE _ p y i Hk Hp Hy Hi).
  simpl in HD, HE. rewrite HkX, HkY in HD, HE. rewrite HwE in HD. rewrite HD, HE.
  assert (block_byte (width imgData) bx by_ y i < length (data imgData)) as Hin.
  { subst bx by_ y i. rewrite <- pixel_index_block_byte by done.
    rewrite Hlen. apply pixel_index_lt; [lia|lia|done]. }
  destruct (lookup_lt_is_Some_2 _ _ Hin) as [v Hv].
  assert (is_byte v) by (eapply lookup_byte; eauto).
  rewrite Hv. by rewrite !(clamp_byte v).
Qed.

(** X4: ShuffleBlockCodec's decode is also inverted by its encode: on a
    well-formed buffer whose width and height are multiples of 8, encode of
    decode gives back the buffer. *)
Theorem shuffle_block_encode_decode cfg imgData :
  wf_ImageData imgData →
  width imgData `mod` 8 = 0 → height imgData `mod` 8 = 0 →
  ∃ decrypted,
    ShuffleBlockCodec._doDecrypt cfg imgData = Some decrypted ∧
    ShuffleBlockCodec._doEncrypt cfg decrypted = Some imgData.
Proof.
  intros [Hwpos Hhpos Hlen Hbytes] Hwm Hhm.
  pose proof (Nat.div_mod (width imgData) 8 ltac:(lia)) as Hw.
  pose proof (Nat.div_mod (height imgData) 8 ltac:(lia)) as Hh.
  destruct (doCommon_spec false cfg imgData ltac:(lia) ltac:(lia))
    as (dec & seq & Hdec & _ & HwD & HhD & HlenD & HD).
  exists dec. split; [exact Hdec|].
  destruct (doCommon_spec true cfg dec ltac:(lia) ltac:(lia))
    as (enc & seq' & Henc & _ & HwE & HhE & HlenE & HE).
  change (ShuffleBlockCodec._doEncrypt cfg dec)
    with (ShuffleBlockCodec._doCommon cfg dec (copy_direction true dec)).
  rewrite Henc. f_equal.
  set (bw := width imgData / 8) in *. set (bh := height imgData / 8) in *.
  assert (width dec / 8 = bw) as HbwD by (rewrite HwD; apply Nat.div_mul; lia).
  assert (height dec / 8 = bh) as HbhD by (rewrite HhD; apply Nat.div_mul; lia).
  rewrite HbwD, HbhD in *.
  assert (width imgData = bw * 8) as HwI by lia.
  assert (height imgData = bh * 8) as HhI by lia.
  clearbody bw bh. clear Hw Hh Hwm Hhm Henc Hdec.
  destruct enc as [wE hE dE], imgData as [wI hI dI]. simpl in *. subst wE hE wI hI.
  f_equal. apply list_eq. intros j.
  destruct (decide (j < bw * 8 * (bh * 8) * 4)) as [Hj|Hj];
    [|rewrite !lookup_ge_None_2; [done|lia..]].
  destruct (block_byte_surj bw bh j Hj) as (bx & by_ & y & i & Hbx & Hby & Hy & Hi & ->).
  destruct (block_number bw bx by_ Hbx) as [HqX HqY].
  assert (by_ * bw + bx < bw * bh) as Hq by nia.
  destruct (permutation_preimage (bw * bh) (randomSeed cfg) _ Hq) as (k & Hk & Hp).
  specialize (HE k _ y i Hk Hp Hy Hi). specialize (HD k _ y i Hk Hp Hy Hi).
  simpl in HD, HE. rewrite HqX, HqY in HD, HE. rewrite HwD in HE. rewrite HE, HD.
  destruct (lookup_lt_is_Some_2 dI (block_byte (bw * 8) bx by_ y i) ltac:(lia)) as [v Hv].
  assert (is_byte v) by (eapply lookup_byte; eauto).
  rewrite Hv. by rewrite !(clamp_byte v).
Qed.
End more_shuffle_block.

(** ** Further properties of ShuffleRgbCodec *)

Section more_shuffle_rgb.
Context `{!Rng}.

(** X6: ShuffleRgbCodec's decode is also inverted by its encode: on a
    well-formed buffer, encode of decode gives back the buffer. *)
Theorem shuffle_rgb_encode_decode cfg imgData :
  wf_ImageData imgData →
  ∃ decrypted,
    ShuffleRgbCodec._doDecrypt cfg imgData = Some decrypted ∧
    ShuffleRgbCodec._doEncrypt cfg decrypted = Some imgData.
Proof.
  intros [_ _ Hlen Hbytes]. set (pixels := width imgData * height imgData) in *.
  destruct (doDecrypt_spec cfg imgData pixels Hlen)
    as (B & seq & data1 & -> & (HlenB & HB) & (_ & Hlen1 & Hin1 & Hout1)).
  eexists. split; [done|].
  destruct (doEncrypt_spec cfg (with_data imgData data1) pixels)
    as (B' & seq' & data2 & -> & (_ & HlenB' & HB') & (Hlen2 & Hin2 & Hout2)).
  { simpl. congruence. }
  simpl in *. f_equal. destruct imgData as [w h data0]. unfold with_data. simpl in *.
  f_equal. apply list_eq. intros idx.
  destruct (decide (idx < pixels * 4)) as [Hidx|Hidx];
    [|rewrite !lookup_ge_None_2; [done|lia..]].
  destruct (decide (idx `mod` 4 = 3)) as [Ha|Ha].
  { rewrite Hout2 by (intros j _; by apply alpha_not_rgb).
    apply Hout1. intros j _. by apply alpha_not_rgb. }
  destruct (rgb_index_surj idx Ha) as (j & Hidxj & Hj).
  assert (j < pixels * 3) as Hjn.
  { pose proof (Nat.div_mod idx 4 ltac:(lia)).
    pose proof (Nat.mod_upper_bound idx 4 ltac:(lia)). lia. }
  clear Hj. subst idx.
  destruct (permutation_preimage (pixels * 3) (randomSeed cfg) j Hjn) as (k & Hk & Hp).
  destruct (lookup_lt_is_Some_2 data0 (rgb_index j) ltac:(lia)) as [v Hv].
  assert (is_byte v) by (eapply lookup_byte; eauto).
  rewrite (Hin2 j Hjn), (HB' k j Hk Hp), (Hin1 k j Hk Hp), (HB j Hjn), Hv.
  by rewrite !(clamp_byte v).
Qed.

(** X7: ShuffleRgbCodec's encode only moves values: its output is a
    well-formed buffer of the same dimensions whose R, G and B values are a
    permutation of those of the input. *)
Theorem shuffle_rgb_permutes_values cfg imgData :
  wf_ImageData imgData →
  ∃ encrypted,
    ShuffleRgbCodec._doEncrypt cfg imgData = Some encrypted ∧
    width encrypted = width imgData ∧ height encrypted = height imgData ∧
    length (data encrypted) = length (data imgData) ∧
    Forall is_byte (data encrypted) ∧
    rgb_values (data encrypted) ≡ₚ rgb_values (data imgData).
Proof.
  intros [_ _ Hlen Hbytes]. set (pixels := width imgData * height imgData) in *.
  destruct (doEncrypt_spec cfg imgData pixels Hlen)
    as (B & seq & data1 & -> & (_ & HlenB & HB) & (Hlen1 & Hin1 & Hout1)).
  eexists. split; [done|]. simpl. split_and!; [done..| |].
  - apply Forall_lookup. intros idx v Hv.
    destruct (decide (idx `mod` 4 = 3)) as [Ha|Ha].
    + rewrite Hout1 in Hv by (intros j _; by apply alpha_not_rgb).
      by eapply lookup_byte.
    + destruct (rgb_index_surj idx Ha) as (j & -> & Hj).
      apply lookup_lt_Some in Hv as Hidx.
      assert (j < pixels * 3) as Hjn.
      { pose proof (Nat.div_mod (rgb_index j) 4 ltac:(lia)).
        pose proof (Nat.mod_upper_bound (rgb_index j) 4 ltac:(lia)). lia. }
      rewrite Hin1 in Hv by done. injection Hv as <-. apply clamp_is_byte.
  - unfold rgb_values. rewrite Hlen1, Hlen, Nat.div_mul by lia.
    set (n := pixels * 3) in *.
    transitivity ((λ j, byte_at data1 (rgb_index j))
                    <$> RandomSequence.permutation n (randomSeed cfg)).
    { apply fmap_Permutation. symmetry. apply permutation_Permutation. }
    match goal with |- ?a ≡ₚ ?b => cut (a = b); [by intros ->|] end.
    apply list_eq. intros k.
    rewrite !list_lookup_fmap.
    destruct (decide (k < n)) as [Hk|Hk].
    + destruct (permutation_lookup n (randomSeed cfg) k Hk) as (p & Hp & Hpn).
      rewrite Hp, lookup_seq_lt by done. simpl. f_equal.
      unfold byte_at. rewrite (Hin1 p Hpn), (HB k p Hk Hp). simpl.
      destruct (lookup_lt_is_Some_2 (data imgData) (rgb_index k)) as [v Hv].
      { rewrite Hlen. apply rgb_index_lt. done. }
      assert (is_byte v) by (eapply lookup_byte; eauto).
      rewrite Hv, (clamp_byte v) by done. simpl. unfold is_byte in *. lia.
    + rewrite lookup_ge_None_2 by (rewrite length_permutation; lia).
      by rewrite lookup_seq_ge by lia.
Qed.
End more_shuffle_rgb.

(** ** More on ShuffleBlockCodec *)

Section more_shuffle_block2.
Context `{!Rng}.

Lemma pixel_in_block W bx by_ xx yy c :
  pixel_index W (bx * 8 + xx) (by_ * 8 + yy) c = block_byte W bx by_ yy (xx * 4 + c).
Proof. unfold pixel_index, block_byte. lia. Qed.

(** X5: ShuffleBlockCodec's encode moves whole blocks: when the [k]-th
    output of the sequence is [p], the 8x8 block number [p] of the output
    (counting row by row) is, pixel for pixel, block number [k] of the
    input. *)
Theorem shuffle_block_encode_moves_blocks cfg imgData :
  wf_ImageData imgData → 8 ≤ width imgData → 8 ≤ height imgData →
  ∃ encrypted,
    ShuffleBlockCodec._doEncrypt cfg imgData = Some encrypted ∧
    ∀ k p xx yy c,
      RandomSequence.permutation (width imgData / 8 * (height imgData / 8))
        (randomSeed cfg) !! k = Some p →
      xx < 8 → yy < 8 → c < 4 →
      data encrypted !! pixel_index (width encrypted)
                          (p `mod` (width imgData / 8) * 8 + xx)
                          (p / (width imgData / 8) * 8 + yy) c
      = data imgData !! pixel_index (width imgData)
                          (k `mod` (width imgData / 8) * 8 + xx)
                          (k / (width imgData / 8) * 8 + yy) c.
Proof.
  intros [_ _ Hlen Hbytes] Hw Hh.
  destruct (doCommon_spec true cfg imgData Hw Hh)
    as (enc & seq & Henc & _ & HwE & HhE & HlenE & HE).
  exists enc. split; [exact Henc|].
  set (bw := width imgData / 8) in *. set (bh := height imgData / 8) in *.
  assert (bw * 8 ≤ width imgData) as HbwW.
  { subst bw. pose proof (Nat.div_mod (width imgData) 8 ltac:(lia)). lia. }
  assert (bh * 8 ≤ height imgData) as HbhH.
  { subst bh. pose proof (Nat.div_mod (height imgData) 8 ltac:(lia)). lia. }
  clearbody bw bh.
  intros k p xx yy c Hp Hxx Hyy Hc.
  assert (k < bw * bh) as Hk.
  { apply lookup_lt_Some in Hp. by rewrite length_permutation in Hp. }
  rewrite HwE, !pixel_in_block.
  specialize (HE k p yy (xx * 4 + c) Hk Hp Hyy ltac:(lia)). simpl in HE. rewrite HE.
  destruct (block_position bw bh k Hk) as [HkX HkY].
  destruct (lookup_lt_is_Some_2 (data imgData)
    (block_byte (width imgData) (k `mod` bw) (k / bw) yy (xx * 4 + c))) as [v Hv].
  { rewrite <- pixel_in_block, Hlen. apply pixel_index_lt; [lia|lia|done]. }
  assert (is_byte v) by (eapply lookup_byte; eauto).
  rewrite Hv. by rewrite clamp_byte.
Qed.
End more_shuffle_block2.

Lemma shuffle_block_too_small_witness :
  @ShuffleBlockCodec._doEncrypt lcg (mkConfig "ShuffleBlockCodec" 2024) (gradient 20 5)
    = None ∧
  @ShuffleBlockCodec._doDecrypt lcg (mkConfig "ShuffleBlockCodec" 2024) (gradient 20 5)
    = None.
Proof.
  apply (@shuffle_block_too_small lcg (mkConfig "ShuffleBlockCodec" 2024) (gradient 20 5)).
  right. simpl. lia.
Defined.

Lemma shuffle_block_decode_encode_crops_witness :
  ∃ encrypted decrypted,
    @ShuffleBlockCodec._doEncrypt lcg (mkConfig "ShuffleBlockCodec" 2024) (gradient 10 10)
      = Some encrypted ∧
    @ShuffleBlockCodec._doDecrypt lcg (mkConfig "ShuffleBlockCodec" 2024) encrypted
      = Some decrypted ∧
    width decrypted = 8 ∧ height decrypted = 8.
Proof.
  destruct (@shuffle_block_decode_encode_crops lcg (mkConfig "ShuffleBlockCodec" 2024)
              (gradient 10 10))
    as (encrypted & decrypted & Henc & Hdec & Hw & Hh & _);
    [wf_by_computation|simpl; lia|simpl; lia|].
  exists encrypted, decrypted. split_and!; [exact Henc|exact Hdec|exact Hw|exact Hh].
Defined.

Lemma shuffle_block_encode_decode_witness :
  ∃ decrypted,
    @ShuffleBlockCodec._doDecrypt lcg (mkConfig "ShuffleBlockCodec" 2024) (gradient 16 8)
      = Some decrypted ∧
    @ShuffleBlockCodec._doEncrypt lcg (mkConfig "ShuffleBlockCodec" 2024) decrypted
      = Some (gradient 16 8).
Proof.
  apply (@shuffle_block_encode_decode lcg (mkConfig "ShuffleBlockCodec" 2024)
           (gradient 16 8)); [wf_by_computation|reflexivity|reflexivity].
Defined.

Lemma shuffle_block_encode_moves_blocks_witness :
  ∃ encrypted,
    @ShuffleBlockCodec._doEncrypt lcg (mkConfig "ShuffleBlockCodec" 2024) (gradient 17 9)
      = Some encrypted ∧
    data encrypted !! pixel_index (width encrypted) (1 * 8 + 3) (0 * 8 + 2) 1
    = data (gradient 17 9) !! pixel_index 17 (0 * 8 + 3) (0 * 8 + 2) 1.
Proof.
  destruct (@shuffle_block_encode_moves_blocks lcg (mkConfig "ShuffleBlockCodec" 2024)
              (gradient 17 9))
    as (encrypted & Henc & Hblocks); [wf_by_computation|simpl; lia|simpl; lia|].
  exists encrypted. split; [exact Henc|].
  apply (Hblocks 0 1 3 2 1); [reflexivity|lia|lia|lia].
Defined.

Lemma shuffle_rgb_encode_decode_witness :
  ∃ decrypted,
    @ShuffleRgbCodec._doDecrypt lcg (mkConfig "ShuffleRgbCodec" 7) (gradient 3 2)
      = Some decrypted ∧
    @ShuffleRgbCodec._doEncrypt lcg (mkConfig "ShuffleRgbCodec" 7) decrypted
      = Some (gradient 3 2).
Proof.
  apply (@shuffle_rgb_encode_decode lcg (mkConfig "ShuffleRgbCodec" 7) (gradient 3 2)).
  wf_by_computation.
Defined.

Lemma shuffle_rgb_permutes_values_witness :
  ∃ encrypted,
    @ShuffleRgbCodec._doEncrypt lcg (mkConfig "ShuffleRgbCodec" 7) (gradient 3 2)
      = Some encrypted ∧
    rgb_values (data encrypted) ≡ₚ rgb_values (data (gradient 3 2)).
Proof.
  destruct (@shuffle_rgb_permutes_values lcg (mkConfig "ShuffleRgbCodec" 7) (gradient 3 2))
    as (encrypted & Henc & _ & _ & _ & _ & Hperm); [wf_by_computation|].
  exists encrypted. split; [exact Henc|exact Hperm].
Defined.

(** ** Further properties of MosaicCodec *)

(** X8: the mosaic never leaves the range of its block: when the values of
    a channel over the block of a pixel all lie between [lo] and [hi], so
    does the value the pixel gets. *)
Theorem mosaic_within_block_range imgData px py c (lo hi : Z) :
  wf_ImageData imgData →
  px < width imgData → py < height imgData → c < 4 →
  (∀ xx yy v,
     xx < block_extent (width imgData) px → yy < block_extent (height imgData) py →
     data imgData !! pixel_index (width imgData) (block_origin px + xx)
                                 (block_origin py + yy) c = Some v →
     (lo ≤ v ≤ hi)%Z) →
  ∃ m, data (MosaicCodec._doEncrypt imgData) !! pixel_index (width imgData) px py c
         = Some m ∧
       (lo ≤ m ≤ hi)%Z.
Proof.
  intros [_ _ Hlen Hbytes] Hpx Hpy Hc Hrange.
  destruct (doEncrypt_mosaicked imgData Hlen) as (_ & _ & _ & Hin & _).
  rewrite (Hin px py c) by done. unfold mosaic_value, block_average.
  destruct (block_extent_spec _ _ Hpx) as (HbwX & HinX & HendX).
  destruct (block_extent_spec _ _ Hpy) as (HbwY & HinY & HendY).
  set (x := block_origin px) in *. set (y := block_origin py) in *.
  set (bw := block_extent (width imgData) px) in *.
  set (bh := block_extent (height imgData) py) in *.
  set (T := channel_total (data imgData) (width imgData) x y bw bh c).
  assert (Z.of_nat (bw * bh) * lo ≤ T ≤ Z.of_nat (bw * bh) * hi)%Z as HT.
  { subst T. unfold channel_total.
    assert (∀ yy, yy < bh →
      (Z.of_nat bw * lo
       ≤ sumZ (λ xx, byte_at (data imgData)
                       (pixel_index (width imgData) (x + xx) (y + yy) c)) bw
       ≤ Z.of_nat bw * hi)%Z) as Hrow.
    { intros yy Hyy. apply sumZ_bounds. intros xx Hxx.
      destruct (lookup_lt_is_Some_2 (data imgData)
                  (pixel_index (width imgData) (x + xx) (y + yy) c)) as [v Hv].
      { rewrite Hlen. apply pixel_index_lt; [lia|lia|done]. }
      unfold byte_at. rewrite Hv. simpl. by apply (Hrange xx yy). }
    pose proof (sumZ_bounds _ bh _ _ Hrow). lia. }
  destruct (round_average_nearest T bw bh) as (m & -> & Hm & Hb); [nia| |].
  { by apply channel_total_bounds. }
  exists m. rewrite clamp_byte by done. split; [done|].
  unfold nearest_integer in Hm. clearbody T.
  assert (0 < Z.of_nat (bw * bh))%Z by nia.
  set (N := Z.of_nat (bw * bh)) in *. clearbody N. nia.
Qed.

Lemma mosaic_within_block_range_witness :
  ∃ m, data (MosaicCodec._doEncrypt mosaic_sample) !! pixel_index 2 0 1 0 = Some m ∧
       (10 ≤ m ≤ 41)%Z.
Proof.
  apply (mosaic_within_block_range mosaic_sample 0 1 0 10 41);
    [wf_by_computation|simpl; lia|simpl; lia|lia|].
  intros xx yy v Hxx Hyy.
  change (block_extent (width mosaic_sample) 0) with 2 in Hxx.
  change (block_extent (height mosaic_sample) 1) with 2 in Hyy.
  destruct xx as [|[|xx]]; [| |lia]; (destruct yy as [|[|yy]]; [| |lia]);
    simpl; intros [= <-]; lia.
Defined.

(** ** Further properties of the container *)

Lemma skip_chunks_advances fuel view offset offset' :
  MosaicCodec.skip_chunks fuel view offset = Returned offset' → offset + 12 ≤ offset'.
Proof.
  revert offset. induction fuel as [|fuel IH]; intros offset; [done|].
  rewrite skip_chunks_S.
  destruct (getUint32 view offset) as [dataLength|]; [|done].
  destruct (getUint32 view (offset + 4)) as [typeCode|]; [|done].
  case_decide.
  - intros Hrec%IH. lia.
  - intros [= <-]. lia.
Qed.

(** X9: whenever MosaicCodec's decode returns a payload, the input starts
    with the PNG signature, and the payload is a non-empty proper suffix of
    the input that starts at least 20 bytes in. *)
Theorem mosaic_decode_payload_is_suffix (bytes payload : list Z) :
  Forall is_byte bytes →
  MosaicCodec.decryptToUrl bytes = Returned (Some payload) →
  take 8 bytes = PNG_SIGNATURE ∧
  payload ≠ [] ∧
  ∃ offset, 20 ≤ offset < length bytes ∧ payload = drop offset bytes.
Proof.
  intros Hbytes Hrun.
  destruct (decide (take 8 bytes = PNG_SIGNATURE)) as [Hsig|Hsig].
  2:{ by rewrite decryptToUrl_invalid in Hrun. }
  split; [done|]. unfold MosaicCodec.decryptToUrl in Hrun.
  rewrite <- (take_drop 8 bytes) in Hrun at 1.
  rewrite Hsig, decryptToUrl_body_signature in Hrun.
  rewrite <- Hsig, take_drop in Hrun.
  destruct (MosaicCodec.skip_chunks (length bytes) bytes 8) as [offset| |] eqn:Hskip;
    [|done..].
  apply skip_chunks_advances in Hskip.
  case_decide as Hlen; [done|]. injection Hrun as <-.
  split.
  - intros Hnil%(f_equal length). rewrite length_drop in Hnil. simpl in Hnil. lia.
  - exists offset. split; [lia|done].
Qed.

Lemma mosaic_decode_payload_is_suffix_witness :
  take 8 (sample_png ++ [1; 2; 3]%Z) = PNG_SIGNATURE ∧
  [1; 2; 3]%Z ≠ [] ∧
  ∃ offset, 20 ≤ offset < length (sample_png ++ [1; 2; 3]%Z) ∧
            [1; 2; 3]%Z = drop offset (sample_png ++ [1; 2; 3]%Z).
Proof.
  apply (mosaic_decode_payload_is_suffix (sample_png ++ [1; 2; 3]%Z) [1; 2; 3]%Z).
  - apply (bool_decide_unpack _). by vm_compute.
  - reflexivity.
Defined.

(** ** URLs and blobs *)


Lemma indexOf_app_first c s1 s2 :
  indexOf c s1 = None →
  indexOf c (s1 +:+ String c s2) = Some (String.length s1).
Proof.
  induction s1 as [|a s1 IH]; simpl; [by rewrite decide_True|].
  case_decide; [done|]. destruct (indexOf c s1) eqn:Hs1; [done|].
  intros _. by rewrite IH.
Qed.

Lemma substring_app_length s1 s2 : String.substring 0 (String.length s1) (s1 +:+ s2) = s1.
Proof.
  induction s1 as [|a s1 IH]; simpl; [by destruct s2|]. by rewrite IH.
Qed.


Lemma string_app_inv_head s t1 t2 : s +:+ t1 = s +:+ t2 → t1 = t2.
Proof. induction s as [|a s IH]; simpl; [done|]. intros [= ?]. by apply IH. Qed.

(** X12: [getImgSrcToDecrypt] ignores everything from the first [@] on:
    a source with a suffix [@...] gives the same URL as the source
    without. *)
Theorem getImgSrcToDecrypt_ignores_suffix getTime src suffix :
  indexOf "@" src = None →
  getImgSrcToDecrypt getTime (src +:+ "@" +:+ suffix) = getImgSrcToDecrypt getTime src.
Proof.
  intros Hat. unfold getImgSrcToDecrypt.
  change (src +:+ "@" +:+ suffix) with (src +:+ String "@" suffix).
  by rewrite indexOf_app_first, Hat, substring_app_length.
Qed.

(** X13: [getImgSrcToDecrypt] leaves a [data:] URL as it is, whatever the
    time, and gives any other URL a different result at each different
    time. *)
Theorem getImgSrcToDecrypt_cache_busting src :
  indexOf "@" src = None →
  (String.prefix "data:" src = true → ∀ getTime, getImgSrcToDecrypt getTime src = src) ∧
  (String.prefix "data:" src = false →
   ∀ t1 t2, t1 ≠ t2 → getImgSrcToDecrypt t1 src ≠ getImgSrcToDecrypt t2 src).
Proof.
  intros Hat. unfold getImgSrcToDecrypt. rewrite Hat. split.
  - by intros ->.
  - intros -> t1 t2 Ht. simpl negb. cbv iota.
    intros Heq. apply string_app_inv_head in Heq.
    destruct (indexOf "?" src); apply string_app_inv_head in Heq;
      by apply (inj pretty) in Heq.
Qed.


Lemma split_app sep s1 s2 :
  indexOf sep s1 = None →
  split sep (s1 +:+ String sep s2) = s1 :: split sep s2.
Proof.
  induction s1 as [|a s1 IH]; simpl; [by rewrite decide_True|].
  case_decide; [done|]. destruct (indexOf sep s1); [done|]. intros _. by rewrite IH.
Qed.


Lemma lazy_until_semicolon_None s :
  indexOf ";" s = None → lazy_until_semicolon s = None.
Proof.
  induction s as [|a s IH]; simpl; [done|].
  case_decide; [done|]. destruct (indexOf ";" s); [done|]. intros _.
  destruct (is_line_terminator a); [done|]. by rewrite IH.
Qed.


Lemma indexOf_tail_None c a s : indexOf c (String a s) = None → indexOf c s = None.
Proof. simpl. case_decide; [done|]. by destruct (indexOf c s). Qed.

Lemma match_mime_None s : indexOf ";" s = None → match_mime s = None.
Proof.
  induction s as [|a s IH]; [done|]. intros Hs.
  pose proof (indexOf_tail_None _ _ _ Hs) as Hs'. simpl.
  rewrite lazy_until_semicolon_None, IH by done. by case_decide.
Qed.



(** X11: [dataUrlToBlob] throws on a URL whose part before the first
    comma has no semicolon, such as [data:text/plain,hello]. *)
Theorem dataUrlToBlob_needs_semicolon atob header payload :
  indexOf "," header = None → indexOf ";" header = None →
  dataUrlToBlob atob (header +:+ "," +:+ payload) = None.
Proof.
  intros Hcomma Hsemi. unfold dataUrlToBlob.
  change (header +:+ "," +:+ payload) with (header +:+ String "," payload).
  rewrite split_app by done.
  assert (∀ pieces, take 2 (header :: pieces) !! 0 = Some header) as -> by done.
  cbn [mbind option_bind]. by rewrite match_mime_None.
Qed.

Lemma dataUrlToBlob_needs_semicolon_witness :
  dataUrlToBlob (λ s, Some s) "data:text/plain,hello" = None.
Proof.
  apply (dataUrlToBlob_needs_semicolon (λ s, Some s) "data:text/plain" "hello");
    reflexivity.
Defined.

Lemma getImgSrcToDecrypt_ignores_suffix_witness :
  getImgSrcToDecrypt 1700000000000 "https://i0.hdslb.com/a.png@320w_200h.webp"
  = getImgSrcToDecrypt 1700000000000 "https://i0.hdslb.com/a.png".
Proof.
  apply (getImgSrcToDecrypt_ignores_suffix 1700000000000%Z
           "https://i0.hdslb.com/a.png" "320w_200h.webp"). reflexivity.
Defined.

Lemma getImgSrcToDecrypt_cache_busting_witness :
  getImgSrcToDecrypt 1 "http://x/a.png?v=2" ≠ getImgSrcToDecrypt 2 "http://x/a.png?v=2".
Proof.
  refine (proj2 (getImgSrcToDecrypt_cache_busting "http://x/a.png?v=2" _) _ 1%Z 2%Z _);
    [reflexivity|reflexivity|lia].
Defined.
